(** * errx: structured error values, chain traversal and context metadata

    A shallow embedding of the Go package [github.com/bjaus/errx]:
    - [error.go]   the [Error] struct, its readers and builder mutators, [Is];
    - [errx.go]    the constructors [New], [Wrap], [Ensure], ... and the chain
                   traversal helpers [As], [AsType], [CodeOf], [IsRetryable];
    - [context.go] [WithMetaContext] and [getCtxMeta].

    Go objects that are shared by reference (the [*Error] structs and the
    [map[string]any] objects) live in an explicit store; a Go function is a
    state transformer over that store which may also panic. *)

From stdpp Require Import gmap strings list fin_maps.

(* String literals; list and number notations keep priority. *)
Open Scope string_scope.
Open Scope list_scope.
Open Scope nat_scope.
Open Scope stdpp_scope.

(** ** Go values *)

(** The values of type [any] that travel through metadata maps and variadic
    key/value lists.  Only the dynamic type matters to the code (the type
    assertion [keyvals[i].(string)]). *)
Inductive any : Type :=
| any_nil
| any_bool (b : bool)
| any_int (z : Z)
| any_string (s : string).

#[global] Instance any_eq_dec : EqDecision any.
Proof. solve_decision. Defined.

(** Heap addresses. *)
Definition loc := nat.

(** [type Code uint8]. *)
Definition Code := N.

(** Modelled from the spec: the generated constants of [code_enum.go] (the
    file is not part of the sources); the numeric values are those pinned by
    [TestCodeValues]. *)
Definition CodeUnknown : Code := 0%N.
Definition CodeNotFound : Code := 4%N.
Definition CodeInternal : Code := 12%N.
Definition CodeUnavailable : Code := 13%N.

Definition uintptr := N.

(** Dynamic types of error values: the package's own [*Error], or some other
    named type (numbered). *)
Inductive GoType : Type :=
| TyError
| TyForeign (n : nat).

#[global] Instance GoType_eq_dec : EqDecision GoType.
Proof. solve_decision. Defined.

(** A value of the interface type [error].

    - [nil_error]: the nil interface;
    - [ptrError p]: dynamic type [*Error]; [p] may be the nil pointer (an
      absent-but-typed value, which is a non-nil interface);
    - [leafError]: a foreign type without an [Unwrap] method ([errors.New]);
    - [wrapError]: a foreign type with [Unwrap() error] ([fmt.Errorf] with
      one [%w]);
    - [joinError]: a foreign type with [Unwrap() []error] ([errors.Join]).

    Foreign types that define their own [As(any) bool] hook are not
    modelled. *)
#[warnings="-register-all"]
Inductive error : Type :=
| nil_error
| ptrError (p : option loc)
| leafError (ty : nat) (msg : string)
| wrapError (ty : nat) (msg : string) (err : error)
| joinError (ty : nat) (errs : list error).

Definition is_nil (err : error) : bool :=
  match err with nil_error => true | _ => false end.

(** [type Error struct].  The two maps are references into the map store
    ([None] is the nil map). *)
Record Error : Type := mkError {
  code : Code;
  message : string;
  debugMessage : string;
  cause : error;
  source : string;
  tags : list string;
  details : option loc;
  metadata : option loc;
  stackTrace : list uintptr;
  retryable : bool
}.

(** ** The store and the effect monad *)

Record World : Type := mkWorld {
  errs : gmap loc Error;                 (* allocated Error structs *)
  maps : gmap loc (gmap string any);     (* allocated map[string]any objects *)
  callers_calls : nat                    (* runtime.Callers invocations so far *)
}.

Definition empty_world : World := mkWorld ∅ ∅ 0.

Definition set_errs (f : gmap loc Error → gmap loc Error) (w : World) : World :=
  mkWorld (f (errs w)) (maps w) (callers_calls w).
Definition set_maps (f : gmap loc (gmap string any) → gmap loc (gmap string any))
    (w : World) : World :=
  mkWorld (errs w) (f (maps w)) (callers_calls w).

(** A Go call returns, panics, or does not return: [Diverge] is the outcome
    of a loop or of a walk of cause links that used up its step bound. *)
Inductive Outcome (A : Type) : Type :=
| Ok (a : A)
| Panic
| Diverge.
Arguments Ok {A} a.
Arguments Panic {A}.
Arguments Diverge {A}.

Definition M (A : Type) : Type := World → Outcome (A * World).

#[global] Instance M_ret : MRet M := λ A a w, Ok (a, w).
#[global] Instance M_bind : MBind M := λ A B k m w,
  match m w with
  | Ok (a, w') => k a w'
  | Panic => Panic
  | Diverge => Diverge
  end.
Definition ret {A} (a : A) : M A := mret a.
Definition panic {A} : M A := λ _, Panic.
Definition diverge {A} : M A := λ _, Diverge.
Definition get_world : M World := λ w, Ok (w, w).

(** The least address above every allocated one. *)
Definition fresh_loc {V} (h : gmap loc V) : loc :=
  S (max_list (elements (dom h))).

(** *** [map[string]any] objects *)

(** [make(map[string]any)]. *)
Definition map_make : M (option loc) :=
  λ w, let l := fresh_loc (maps w) in Ok (Some l, set_maps <[l := ∅]> w).

(** The entries seen by [for k, v := range m], in one of the orders Go may
    pick (the loops of this package assign each key once, so that their
    effect is the same in every order, see [foldl_put_permutation]);
    ranging over the nil map runs zero iterations. *)
Definition map_entries (m : option loc) : M (list (string * any)) :=
  λ w, match m with
       | None => Ok ([], w)
       | Some l => match maps w !! l with
                   | Some content => Ok (map_to_list content, w)
                   | None => Panic
                   end
       end.

(** [m[key] = value]; assignment to an entry of the nil map panics. *)
Definition map_assign (m : option loc) (key : string) (value : any) : M unit :=
  λ w, match m with
       | None => Panic
       | Some l => match maps w !! l with
                   | Some content => Ok (tt, set_maps <[l := <[key := value]> content]> w)
                   | None => Panic
                   end
       end.

(** The content of a map reference, as a reader ([m[key]], [len(m)]) sees
    it: the nil map reads as empty. *)
Definition map_content (w : World) (m : option loc) : gmap string any :=
  match m with
  | None => ∅
  | Some l => default ∅ (maps w !! l)
  end.

(** *** [*Error] objects *)

(** [&Error{...}]. *)
Definition alloc_Error (E : Error) : M (option loc) :=
  λ w, let l := fresh_loc (errs w) in Ok (Some l, set_errs <[l := E]> w).

(** [*e]: field reads through a pointer; the nil pointer panics. *)
Definition load (e : option loc) : M Error :=
  λ w, match e with
       | None => Panic
       | Some l => match errs w !! l with
                   | Some E => Ok (E, w)
                   | None => Panic
                   end
       end.

(** [e.field = ...]: a field write through a non-nil pointer. *)
Definition modify (e : option loc) (f : Error → Error) : M unit :=
  λ w, match e with
       | None => Panic
       | Some l => match errs w !! l with
                   | Some E => Ok (tt, set_errs <[l := f E]> w)
                   | None => Panic
                   end
       end.

(** ** context.go *)

(** Keys and values stored in a [context.Context]: the package's private
    [errxCtxKey{}] or somebody else's key; a [map[string]any] reference or
    a value of another type. *)
Inductive ctxKey : Type :=
| errxCtxKey
| otherCtxKey (n : nat).

#[global] Instance ctxKey_eq_dec : EqDecision ctxKey.
Proof. solve_decision. Defined.

Inductive ctxValue : Type :=
| ctx_map (m : option loc)
| ctx_other (v : any).

(** A non-nil [context.Context]: the root, a value binding, or a context
    derived for cancellation or a deadline, which binds nothing.  The
    interface value itself is an [option Context], [None] being the nil
    interface. *)
Inductive Context : Type :=
| Background
| valueCtx (parent : Context) (key : ctxKey) (val : ctxValue)
| cancelCtx (parent : Context).

(** [ctx.Value(key)]: the innermost binding of [key], or nil. *)
Fixpoint ctx_Value (ctx : Context) (key : ctxKey) : option ctxValue :=
  match ctx with
  | Background => None
  | valueCtx parent k v => if decide (k = key) then Some v else ctx_Value parent key
  | cancelCtx parent => ctx_Value parent key
  end.

(** [context.WithValue(parent, key, val)] panics on a nil parent. *)
Definition context_WithValue (parent : option Context) (key : ctxKey) (val : ctxValue)
    : M (option Context) :=
  match parent with
  | None => panic
  | Some p => ret (Some (valueCtx p key val))
  end.

(** [getCtxMeta]: the map stored under [errxCtxKey{}], or nil. *)
Definition getCtxMeta (ctx : option Context) : option loc :=
  match ctx with
  | None => None
  | Some c =>
      match ctx_Value c errxCtxKey with
      | Some (ctx_map meta) => meta
      | _ => None
      end
  end.

(** [for k, v := range src { dst[k] = v }]. *)
Fixpoint range_assign (entries : list (string * any)) (dst : option loc) : M unit :=
  match entries with
  | [] => ret tt
  | (k, v) :: rest => map_assign dst k v ;; range_assign rest dst
  end.

(** The loop [for i := 0; i < len(keyvals)-1; i += 2] of [WithMetaContext];
    [fuel] bounds the number of iterations. *)
Fixpoint keyvals_loop (fuel : nat) (keyvals : list any) (i : nat) (merged : option loc)
    : M unit :=
  if (Z.of_nat i <? Z.of_nat (length keyvals) - 1)%Z then
    match fuel with
    | O => diverge
    | S fuel' =>
        match keyvals !! i with
        | Some (any_string key) =>
            match keyvals !! (i + 1) with
            | Some value => map_assign merged key value ;;
                            keyvals_loop fuel' keyvals (i + 2) merged
            | None => panic
            end
        | Some _ => keyvals_loop fuel' keyvals (i + 2) merged
        | None => panic
        end
    end
  else ret tt.

(** [WithMetaContext]. *)
Definition WithMetaContext (ctx : option Context) (keyvals : list any) : M (option Context) :=
  let existing := getCtxMeta ctx in
  merged ← map_make;
  entries ← map_entries existing;
  range_assign entries merged ;;
  keyvals_loop (length keyvals) keyvals 0 merged ;;
  context_WithValue ctx errxCtxKey (ctx_map merged).

(** The snapshot a reader of the context sees: the content of the map
    [getCtxMeta] returns, empty when there is none. *)
Definition snapshot (w : World) (ctx : option Context) : gmap string any :=
  map_content w (getCtxMeta ctx).

(** ** error.go: readers and builder mutators *)

(** [Error.Code]. *)
Definition Error_Code (e : option loc) : M Code :=
  match e with
  | None => ret CodeUnknown
  | Some _ => E ← load e; ret (code E)
  end.

(** [Error.Error]. *)
Definition Error_Error (e : option loc) : M string :=
  match e with
  | None => ret ""
  | Some _ => E ← load e; ret (message E)
  end.

(** [Error.Unwrap]. *)
Definition Error_Unwrap (e : option loc) : M error :=
  match e with
  | None => ret nil_error
  | Some _ => E ← load e; ret (cause E)
  end.

(** Field updates. *)
Definition with_debugMessage (s : string) (E : Error) : Error :=
  mkError (code E) (message E) s (cause E) (source E) (tags E)
          (details E) (metadata E) (stackTrace E) (retryable E).
Definition with_source (s : string) (E : Error) : Error :=
  mkError (code E) (message E) (debugMessage E) (cause E) s (tags E)
          (details E) (metadata E) (stackTrace E) (retryable E).
Definition with_tags (t : list string) (E : Error) : Error :=
  mkError (code E) (message E) (debugMessage E) (cause E) (source E) t
          (details E) (metadata E) (stackTrace E) (retryable E).
Definition with_retryable (b : bool) (E : Error) : Error :=
  mkError (code E) (message E) (debugMessage E) (cause E) (source E) (tags E)
          (details E) (metadata E) (stackTrace E) b.

(** [Error.WithDetail]. *)
Definition Error_WithDetail (e : option loc) (key : string) (value : any) : M (option loc) :=
  match e with
  | None => ret None
  | Some _ => E ← load e; map_assign (details E) key value ;; ret e
  end.

(** [Error.WithMetaFromContext]. *)
Definition Error_WithMetaFromContext (e : option loc) (ctx : option Context) : M (option loc) :=
  match e with
  | None => ret None
  | Some _ =>
      entries ← map_entries (getCtxMeta ctx);
      E ← load e;
      range_assign entries (metadata E) ;;
      ret e
  end.

(** [Error.WithMeta]. *)
Definition Error_WithMeta (e : option loc) (key : string) (value : any) : M (option loc) :=
  match e with
  | None => ret None
  | Some _ => E ← load e; map_assign (metadata E) key value ;; ret e
  end.

(** [Error.WithDebug]. *)
Definition Error_WithDebug (e : option loc) (msg : string) : M (option loc) :=
  match e with
  | None => ret None
  | Some _ => modify e (with_debugMessage msg) ;; ret e
  end.

(** [Error.WithSource]. *)
Definition Error_WithSource (e : option loc) (src : string) : M (option loc) :=
  match e with
  | None => ret None
  | Some _ => modify e (with_source src) ;; ret e
  end.

(** [Error.WithTags]. *)
Definition Error_WithTags (e : option loc) (ts : list string) : M (option loc) :=
  match e with
  | None => ret None
  | Some _ => modify e (λ E, with_tags (tags E ++ ts) E) ;; ret e
  end.

(** [Error.WithRetryable]. *)
Definition Error_WithRetryable (e : option loc) : M (option loc) :=
  match e with
  | None => ret None
  | Some _ => modify e (with_retryable true) ;; ret e
  end.

(** [Error.Source]. *)
Definition Error_Source (e : option loc) : M string :=
  match e with
  | None => ret ""
  | Some _ => E ← load e; ret (source E)
  end.

(** [Error.Tags]. *)
Definition Error_Tags (e : option loc) : M (list string) :=
  match e with
  | None => ret []
  | Some _ => E ← load e; ret (tags E)
  end.

(** [Error.Details]: the map reference itself. *)
Definition Error_Details (e : option loc) : M (option loc) :=
  match e with
  | None => ret None
  | Some _ => E ← load e; ret (details E)
  end.

(** [Error.Metadata]: the map reference itself. *)
Definition Error_Metadata (e : option loc) : M (option loc) :=
  match e with
  | None => ret None
  | Some _ => E ← load e; ret (metadata E)
  end.

(** [Error.StackTrace]. *)
Definition Error_StackTrace (e : option loc) : M (list uintptr) :=
  match e with
  | None => ret []
  | Some _ => E ← load e; ret (stackTrace E)
  end.

(** [Error.IsRetryable]. *)
Definition Error_IsRetryable (e : option loc) : M bool :=
  match e with
  | None => ret false
  | Some _ => E ← load e; ret (retryable E)
  end.

(** [Error.Is].  The type assertion [target] to [*Error] succeeds on every
    value of dynamic type [*Error], the nil pointer included; the field
    read [t.code] then goes through [load]. *)
Definition Error_Is (e : option loc) (target : error) : M bool :=
  match e with
  | None => ret (is_nil target)
  | Some _ =>
      match target with
      | ptrError t =>
          E ← load e;
          T ← load t;
          ret (bool_decide (code E = code T))
      | _ => ret false
      end
  end.

(** ** errx.go *)

(** *** Stack capture *)

(** Program counters of the functions that sit between a caller and
    [runtime.Callers]. *)
Definition pc_Callers : uintptr := 1%N.
Definition pc_captureStackTrace : uintptr := 2%N.
Definition pc_newError : uintptr := 3%N.
Definition pc_New : uintptr := 4%N.
Definition pc_Newf : uintptr := 5%N.
Definition pc_Wrap : uintptr := 6%N.
Definition pc_Wrapf : uintptr := 7%N.
Definition pc_Ensure : uintptr := 8%N.
Definition pc_Ensuref : uintptr := 9%N.

(** [runtime.Callers(skip, pcs)] with [len(pcs) = n], called from a function
    whose own stack (innermost frame first) is [stack]: frame 0 is
    [Callers] itself; the result is the filled prefix of [pcs]. *)
Definition runtime_Callers (skip n : nat) (stack : list uintptr) : M (list uintptr) :=
  λ w, Ok (take n (drop skip (pc_Callers :: stack)),
           mkWorld (errs w) (maps w) (S (callers_calls w))).

Definition stackSkipDepth : nat := 4.
Definition maxDepth : nat := 32.

(** [captureStackTrace]; [stack] is the caller's stack. *)
Definition captureStackTrace (skip : nat) (stack : list uintptr) : M (list uintptr) :=
  runtime_Callers skip maxDepth (pc_captureStackTrace :: stack).

(** [newError]; [stack] is the caller's stack. *)
Definition newError (c : Code) (msg : string) (cause_ : error) (stack : list uintptr)
    : M (option loc) :=
  d ← map_make;
  m ← map_make;
  st ← captureStackTrace stackSkipDepth (pc_newError :: stack);
  alloc_Error (mkError c msg "" cause_ "" [] d m st false).

(** *** Chain traversal *)

Definition type_of (err : error) : option GoType :=
  match err with
  | nil_error => None
  | ptrError _ => Some TyError
  | leafError ty _ | wrapError ty _ _ | joinError ty _ => Some (TyForeign ty)
  end.

(** The loop of [errors.As] over the parts of a joined error: nil parts
    are skipped, the first part in which [walk] finds a match decides. *)
Definition first_found (walk : error → Outcome (option error))
    : list error → Outcome (option error) :=
  fix each (l : list error) : Outcome (option error) :=
    match l with
    | [] => Ok None
    | e :: l' =>
        if is_nil e then each l'
        else match walk e with
             | Ok None => each l'
             | r => r
             end
    end.

(** The loop of [errors.As] for a target of type [*T]: test the node, else
    unwrap.  Foreign nodes are walked structurally; a step through the
    [Unwrap] method of an [*Error] node reads the store and costs one unit
    of [fuel]. *)
Fixpoint errors_as (fuel : nat) (T : GoType) (w : World) : error → Outcome (option error) :=
  fix walk (err : error) : Outcome (option error) :=
    if decide (type_of err = Some T) then Ok (Some err)
    else
      match err with
      | wrapError _ _ inner => if is_nil inner then Ok None else walk inner
      | joinError _ errs => first_found walk errs
      | ptrError p =>
          match Error_Unwrap p w with
          | Ok (c, _) =>
              if is_nil c then Ok None
              else match fuel with
                   | O => Diverge
                   | S fuel' => errors_as fuel' T w c
                   end
          | Panic => Panic
          | Diverge => Diverge
          end
      | _ => Ok None
      end.

(** [errors.As(err, &pe)] with [pe] of type [T]: the matching node, if any.
    A walk passes through each allocated [Error] at most once as long as
    causes are older than what wraps them, which bounds the store steps
    (see [errors_As_returns]). *)
Definition errors_As (err : error) (T : GoType) : M (option error) :=
  λ w, match errors_as (size (errs w)) T w err with
       | Ok r => Ok (r, w)
       | Panic => Panic
       | Diverge => Diverge
       end.

(** [AsType[E]]: a value of type [E] is represented by the node that
    carries it, the zero value by [nil_error]. *)
Definition AsType (T : GoType) (err : error) : M (error * bool) :=
  if is_nil err then ret (nil_error, false)
  else
    r ← errors_As err T;
    match r with
    | Some pe => ret (pe, true)
    | None => ret (nil_error, false)
    end.

(** [IsType[E]]. *)
Definition IsType (T : GoType) (err : error) : M bool :=
  '(_, ok) ← AsType T err; ret ok.

(** The [*Error] carried by a value of type [*Error]. *)
Definition as_ptr (pe : error) : option loc :=
  match pe with ptrError p => p | _ => None end.

(** [As]. *)
Definition As (err : error) : M (option loc * bool) :=
  '(pe, ok) ← AsType TyError err; ret (as_ptr pe, ok).

(** [Is]. *)
Definition Is (err : error) : M bool := IsType TyError err.

(** [CodeOf]. *)
Definition CodeOf (err : error) : M Code :=
  '(e, ok) ← As err;
  if (ok : bool) then E ← load e; ret (code E)
  else ret CodeUnknown.

(** [CodeIs]. *)
Definition CodeIs (err : error) (c : Code) : M bool :=
  '(e, ok) ← As err;
  if (ok : bool) then E ← load e; ret (bool_decide (code E = c))
  else ret false.

(** [CodeIn]. *)
Definition CodeIn (err : error) (codes : list Code) : M bool :=
  '(e, ok) ← As err;
  if negb (ok : bool) then ret false
  else E ← load e; ret (bool_decide (code E ∈ codes)).

(** [IsRetryable]. *)
Definition IsRetryable (err : error) : M bool :=
  '(e, ok) ← As err;
  if negb (ok : bool) then ret false
  else Error_IsRetryable e.

(** *** Constructors *)

(** [New]; [stack] is the caller's stack, innermost frame first. *)
Definition New (c : Code) (msg : string) (stack : list uintptr) : M (option loc) :=
  newError c msg nil_error (pc_New :: stack).

(** [Wrap]. *)
Definition Wrap (err : error) (c : Code) (msg : string) (stack : list uintptr)
    : M (option loc) :=
  if is_nil err then ret None
  else newError c msg err (pc_Wrap :: stack).

(** [Ensure]. *)
Definition Ensure (err : error) (c : Code) (msg : string) (stack : list uintptr)
    : M (option loc) :=
  if is_nil err then ret None
  else
    '(e, ok) ← As err;
    if (ok : bool) then ret e
    else newError c msg err (pc_Ensure :: stack).

Section Formatted.
(** [fmt.Sprintf], left abstract. *)
Variable Sprintf : string → list any → string.

(** [Newf]. *)
Definition Newf (c : Code) (format : string) (args : list any) (stack : list uintptr)
    : M (option loc) :=
  newError c (Sprintf format args) nil_error (pc_Newf :: stack).

(** [Wrapf]. *)
Definition Wrapf (err : error) (c : Code) (format : string) (args : list any)
    (stack : list uintptr) : M (option loc) :=
  if is_nil err then ret None
  else newError c (Sprintf format args) err (pc_Wrapf :: stack).

(** [Ensuref]. *)
Definition Ensuref (err : error) (c : Code) (format : string) (args : list any)
    (stack : list uintptr) : M (option loc) :=
  if is_nil err then ret None
  else
    '(e, ok) ← As err;
    if (ok : bool) then ret e
    else newError c (Sprintf format args) err (pc_Ensuref :: stack).

(** [Error.WithDebugf]. *)
Definition Error_WithDebugf (e : option loc) (format : string) (args : list any)
    : M (option loc) :=
  Error_WithDebug e (Sprintf format args).
End Formatted.


(** * Specification-side notions *)

(** The nodes of the unwrap tree of [err] in the order a walk visits them:
    each node before what it unwraps to, the parts of a joined error from
    left to right.  An [*Error] node closes its branch: whatever lies
    behind its cause link comes after the node itself. *)
Fixpoint chain (err : error) : list error :=
  match err with
  | nil_error => []
  | ptrError _ | leafError _ _ => [err]
  | wrapError _ _ inner => err :: chain inner
  | joinError _ errs =>
      err :: (fix over (l : list error) : list error :=
                match l with
                | [] => []
                | e :: l' => chain e ++ over l'
                end) errs
  end.

(** The ErrorValue a node is, if it is one: the pointer it carries
    ([Some None] for an absent-but-typed [*Error]). *)
Definition ErrorValue_of (node : error) : option (option loc) :=
  match node with
  | ptrError p => Some p
  | _ => None
  end.

(** The first ErrorValue of the chain. *)
Definition first_Error (err : error) : option (option loc) :=
  head (omap ErrorValue_of (chain err)).

(** A plain unwrap chain: no joined error on the way. *)
Fixpoint linear (err : error) : bool :=
  match err with
  | wrapError _ _ inner => linear inner
  | joinError _ _ => false
  | _ => true
  end.

(** The pairs of a variadic key/value list; a trailing key without a value
    is dropped. *)
Fixpoint spec_pairs (keyvals : list any) : list (any * any) :=
  match keyvals with
  | k :: v :: rest => (k, v) :: spec_pairs rest
  | _ => []
  end.

(** The pairs whose key is a string; the others are dropped. *)
Fixpoint spec_string_pairs (pairs : list (any * any)) : list (string * any) :=
  match pairs with
  | [] => []
  | (any_string s, v) :: rest => (s, v) :: spec_string_pairs rest
  | _ :: rest => spec_string_pairs rest
  end.

(** The child snapshot as the specification words it: the parent snapshot
    merged with the supplied pairs, a supplied pair winning over the parent
    and the last pair winning among duplicates ([list_to_map] keeps the
    first binding of a key, [∪] prefers its left operand). *)
Definition spec_attach (parent : gmap string any) (keyvals : list any) : gmap string any :=
  list_to_map (reverse (spec_string_pairs (spec_pairs keyvals))) ∪ parent.

(** What a reader gets from [e.Metadata()[k]]. *)
Definition metadata_at (w : World) (e : option loc) (k : string) : option any :=
  match Error_Metadata e w with
  | Ok (m, _) => map_content w m !! k
  | _ => None
  end.

(** Every cause was allocated before the [Error] that holds it: the order
    in which constructors, which never reassign a cause, build a store. *)
Definition causes_older (w : World) : Prop :=
  ∀ l E l', errs w !! l = Some E → ptrError (Some l') ∈ chain (cause E) → l' < l.

(** The allocated [Error] addresses below [n]. *)
Definition allocated_below (w : World) (n : loc) : gset loc :=
  filter (λ l, l < n) (dom (errs w)).

(** The [*Error] pointers of a chain are allocated. *)
Definition error_valid (w : World) (err : error) : Prop :=
  ∀ l, ptrError (Some l) ∈ chain err → is_Some (errs w !! l).

(** A context is valid in a store when the map it carries is allocated. *)
Definition ctx_valid (w : World) (ctx : option Context) : Prop :=
  ∀ l, getCtxMeta ctx = Some l → is_Some (maps w !! l).

(** The outcome of a constructor call started in [w] with caller stack
    [stack] is a freshly built [Error]: a new struct whose two maps are
    allocated and empty, whose stack trace is the one capture made by the
    call, at most [maxDepth] frames long. *)
Definition constructed (w : World) (stack : list uintptr)
    (r : Outcome (option loc * World)) : Prop :=
  ∃ l E d m w',
    r = Ok (Some l, w') ∧
    errs w !! l = None ∧ errs w' !! l = Some E ∧
    details E = Some d ∧ maps w' !! d = Some ∅ ∧
    metadata E = Some m ∧ maps w' !! m = Some ∅ ∧
    d ≠ m ∧
    callers_calls w' = S (callers_calls w) ∧
    stackTrace E = take maxDepth stack ∧
    length (stackTrace E) ≤ 32.

(** A call on the [Error] at [l] that returns has made no capture and has
    left the stack trace of that [Error] alone. *)
Definition keeps_stack (l : loc) (w : World) (r : Outcome (option loc * World)) : Prop :=
  ∀ e w', r = Ok (e, w') →
    callers_calls w' = callers_calls w ∧
    stackTrace <$> (errs w' !! l) = stackTrace <$> (errs w !! l).

(** One map assignment, as a function on contents. *)
Definition put (content : gmap string any) (kv : string * any) : gmap string any :=
  <[kv.1 := kv.2]> content.

(** ** A sample store

    An inner, retryable [Error] (address 1) wrapped by an outer one that is
    not retryable (address 2), their four empty maps, and a context whose
    snapshot (map 5) binds ["k"]. *)
Definition sample_inner : Error :=
  mkError CodeUnavailable "service unavailable" "" nil_error "" []
          (Some 1) (Some 2) [100%N] true.
Definition sample_outer : Error :=
  mkError CodeNotFound "user not found" "" (ptrError (Some 1)) "" []
          (Some 3) (Some 4) [100%N] false.
Definition sample_world : World :=
  mkWorld (<[2 := sample_outer]> (<[1 := sample_inner]> ∅))
          (<[5 := <["k" := any_int 7]> ∅]>
             (<[4 := ∅]> (<[3 := ∅]> (<[2 := ∅]> (<[1 := ∅]> ∅)))))
          2.
Definition sample_ctx : Context :=
  valueCtx Background errxCtxKey (ctx_map (Some 5)).
Definition sample_keyvals : list any :=
  [any_string "k"; any_int 8; any_int 3; any_string "dropped"; any_string "trailing"].

(** * More of the package

    [errx.go]: [AsType] and [IsType] at any type argument.  [error.go]:
    [DebugMessage] and [LogValue]; sequences of builder calls; the notions
    the further properties are stated with. *)

(** The type argument [E] of [AsType[E error]] and [IsType[E error]]: any
    type that implements [error].  [errors.As] tests a node by
    [reflectlite.TypeOf(err).AssignableTo(targetType)]: for a concrete [E]
    this is identity with the dynamic type of the node; for an interface
    type [E] it is whether that dynamic type implements [E], so an
    interface type is given by the dynamic types that implement it.  The
    interface [error] itself is implemented by all of them. *)
Inductive target : Type :=
| concrete (T : GoType)
| iface (implements : GoType → bool).

Definition error_iface : target := iface (λ _, true).

Definition assignable (E : target) (err : error) : bool :=
  match type_of err with
  | None => false
  | Some T' =>
      match E with
      | concrete T => bool_decide (T' = T)
      | iface implements => implements T'
      end
  end.

(** The loop of [errors.As] for a target of type [*E], [E] any type
    argument; [errors_as] above is its instance at a concrete type (see
    [errors_as_E_concrete]). *)
Fixpoint errors_as_E (fuel : nat) (E : target) (w : World) : error → Outcome (option error) :=
  fix walk (err : error) : Outcome (option error) :=
    if assignable E err then Ok (Some err)
    else
      match err with
      | wrapError _ _ inner => if is_nil inner then Ok None else walk inner
      | joinError _ errs => first_found walk errs
      | ptrError p =>
          match Error_Unwrap p w with
          | Ok (c, _) =>
              if is_nil c then Ok None
              else match fuel with
                   | O => Diverge
                   | S fuel' => errors_as_E fuel' E w c
                   end
          | Panic => Panic
          | Diverge => Diverge
          end
      | _ => Ok None
      end.

(** [errors.As(err, &pe)] with [pe] of type [E]. *)
Definition errors_As_E (err : error) (E : target) : M (option error) :=
  λ w, match errors_as_E (size (errs w)) E w err with
       | Ok r => Ok (r, w)
       | Panic => Panic
       | Diverge => Diverge
       end.

(** [AsType[E]] at any type argument; the zero value of [E] is
    represented by [nil_error]. *)
Definition AsType_E (E : target) (err : error) : M (error * bool) :=
  if is_nil err then ret (nil_error, false)
  else
    r ← errors_As_E err E;
    match r with
    | Some pe => ret (pe, true)
    | None => ret (nil_error, false)
    end.

(** [IsType[E]] at any type argument. *)
Definition IsType_E (E : target) (err : error) : M bool :=
  '(_, ok) ← AsType_E E err; ret ok.

(** The cause of every allocated [Error] holds allocated [*Error] pointers
    only. *)
Definition causes_valid (w : World) : Prop :=
  ∀ l E, errs w !! l = Some E → error_valid w (cause E).

(** [len(m)] and the formatting verbs read a map through its reference;
    the nil map reads as empty. *)
Definition map_read (m : option loc) : M (gmap string any) :=
  λ w, match m with
       | None => Ok (∅, w)
       | Some l => match maps w !! l with
                   | Some content => Ok (content, w)
                   | None => Panic
                   end
       end.

(** What a reader gets from [e.Details()[k]]. *)
Definition details_at (w : World) (e : option loc) (k : string) : option any :=
  match Error_Details e w with
  | Ok (m, _) => map_content w m !! k
  | _ => None
  end.

(** The values [LogValue] puts in its attributes: [slog.String],
    [slog.Bool], and [slog.Any] of a [[]string], of a [map[string]any]
    (the reference itself) and of an [error]. *)
Inductive slog_Value : Type :=
| slog_String (s : string)
| slog_Bool (b : bool)
| slog_Strings (l : list string)
| slog_Map (m : option loc)
| slog_Error (err : error).

Section Rendering.
(** [Code.String] (generated code, not among the sources) and the [%v]
    verb of [fmt] on a [[]string], on a [map[string]any] and on a value of
    a foreign error type: left abstract.  For a foreign value [fmt] prints
    what the [Format] method of its type writes when the type has one, and
    the text of its [Error] method otherwise. *)
Variable Code_String : Code → string.
Variable fmt_strings : list string → string.
Variable fmt_map : gmap string any → string.
Variable fmt_foreign : error → string.

(** [fmt.Sprintf("%v", err)] on a value of type [error].  The type
    [*Error] has no [Format] method, so for it [fmt] calls [Error], which
    answers the message, and [""] on the nil pointer. *)
Definition fmt_error (err : error) : M string :=
  match err with
  | nil_error => ret "<nil>"
  | ptrError p => Error_Error p
  | leafError _ _ | wrapError _ _ _ | joinError _ _ => ret (fmt_foreign err)
  end.

(** [Error.DebugMessage]. *)
Definition Error_DebugMessage (e : option loc) : M string :=
  match e with
  | None => ret ""
  | Some _ =>
      E ← load e;
      let parts := ["[" +:+ Code_String (code E) +:+ "] " +:+ message E] in
      let parts := if bool_decide (source E ≠ "")
                   then parts ++ ["source=" +:+ source E] else parts in
      let parts := if bool_decide (0 < length (tags E))
                   then parts ++ ["tags=" +:+ fmt_strings (tags E)] else parts in
      d ← map_read (details E);
      let parts := if bool_decide (0 < size d)
                   then parts ++ ["details=" +:+ fmt_map d] else parts in
      m ← map_read (metadata E);
      let parts := if bool_decide (0 < size m)
                   then parts ++ ["metadata=" +:+ fmt_map m] else parts in
      let parts := if retryable E then parts ++ ["retryable=true"] else parts in
      let parts := if bool_decide (debugMessage E ≠ "" ∧ debugMessage E ≠ message E)
                   then parts ++ ["debug=" +:+ debugMessage E] else parts in
      parts ← (if is_nil (cause E) then mret parts
               else text ← fmt_error (cause E);
                    mret (parts ++ ["cause=" +:+ text]));
      mret (String.concat " | " parts)
  end.

(** [Error.LogValue]: [None] is the zero [slog.Value], [Some attrs] the
    group of the attributes in order. *)
Definition Error_LogValue (e : option loc) : M (option (list (string * slog_Value))) :=
  match e with
  | None => ret None
  | Some _ =>
      E ← load e;
      let attrs := [("code", slog_String (Code_String (code E)));
                    ("message", slog_String (message E))] in
      let attrs := if bool_decide (source E ≠ "")
                   then attrs ++ [("source", slog_String (source E))] else attrs in
      let attrs := if bool_decide (0 < length (tags E))
                   then attrs ++ [("tags", slog_Strings (tags E))] else attrs in
      d ← map_read (details E);
      let attrs := if bool_decide (0 < size d)
                   then attrs ++ [("details", slog_Map (details E))] else attrs in
      m ← map_read (metadata E);
      let attrs := if bool_decide (0 < size m)
                   then attrs ++ [("metadata", slog_Map (metadata E))] else attrs in
      let attrs := if retryable E
                   then attrs ++ [("retryable", slog_Bool true)] else attrs in
      let attrs := if bool_decide (debugMessage E ≠ "" ∧ debugMessage E ≠ message E)
                   then attrs ++ [("debug", slog_String (debugMessage E))] else attrs in
      let attrs := if is_nil (cause E) then attrs
                   else attrs ++ [("cause", slog_Error (cause E))] in
      mret (Some attrs)
  end.
End Rendering.

(** The optional fields of an [Error], in the order both renderings list
    them, and when a field counts as set. *)
Inductive field : Type :=
| f_source | f_tags | f_details | f_metadata | f_retryable | f_debug | f_cause.

Definition all_fields : list field :=
  [f_source; f_tags; f_details; f_metadata; f_retryable; f_debug; f_cause].

Definition field_set (w : World) (E : Error) (f : field) : bool :=
  match f with
  | f_source => bool_decide (source E ≠ "")
  | f_tags => bool_decide (tags E ≠ [])
  | f_details => bool_decide (map_content w (details E) ≠ ∅)
  | f_metadata => bool_decide (map_content w (metadata E) ≠ ∅)
  | f_retryable => retryable E
  | f_debug => bool_decide (debugMessage E ≠ "" ∧ debugMessage E ≠ message E)
  | f_cause => negb (is_nil (cause E))
  end.

Definition field_name (f : field) : string :=
  match f with
  | f_source => "source" | f_tags => "tags" | f_details => "details"
  | f_metadata => "metadata" | f_retryable => "retryable" | f_debug => "debug"
  | f_cause => "cause"
  end.

(** The fields of [E] that are set, in rendering order. *)
Definition fields_set (w : World) (E : Error) : list field :=
  List.filter (field_set w E) all_fields.

(** The text of one [DebugMessage] segment after its [name=] prefix; [text]
    is what [%v] prints for the cause. *)
Definition field_text (fmt_strings : list string → string)
    (fmt_map : gmap string any → string) (w : World) (E : Error) (text : string)
    (f : field) : string :=
  match f with
  | f_source => source E
  | f_tags => fmt_strings (tags E)
  | f_details => fmt_map (map_content w (details E))
  | f_metadata => fmt_map (map_content w (metadata E))
  | f_retryable => "true"
  | f_debug => debugMessage E
  | f_cause => text
  end.

(** The value of one [LogValue] attribute. *)
Definition field_value (E : Error) (f : field) : slog_Value :=
  match f with
  | f_source => slog_String (source E)
  | f_tags => slog_Strings (tags E)
  | f_details => slog_Map (details E)
  | f_metadata => slog_Map (metadata E)
  | f_retryable => slog_Bool true
  | f_debug => slog_String (debugMessage E)
  | f_cause => slog_Error (cause E)
  end.

(** One call of a builder method, and a chain of such calls, each made on
    the value the previous one returned. *)
Inductive builder : Type :=
| call_WithDetail (key : string) (value : any)
| call_WithMeta (key : string) (value : any)
| call_WithMetaFromContext (ctx : option Context)
| call_WithDebug (msg : string)
| call_WithSource (src : string)
| call_WithTags (ts : list string)
| call_WithRetryable.

Definition call (e : option loc) (b : builder) : M (option loc) :=
  match b with
  | call_WithDetail k v => Error_WithDetail e k v
  | call_WithMeta k v => Error_WithMeta e k v
  | call_WithMetaFromContext ctx => Error_WithMetaFromContext e ctx
  | call_WithDebug msg => Error_WithDebug e msg
  | call_WithSource src => Error_WithSource e src
  | call_WithTags ts => Error_WithTags e ts
  | call_WithRetryable => Error_WithRetryable e
  end.

Fixpoint calls (e : option loc) (bs : list builder) : M (option loc) :=
  match bs with
  | [] => mret e
  | b :: bs' => e' ← call e b; calls e' bs'
  end.

(** The contexts a chain of calls reads. *)
Fixpoint contexts_of (bs : list builder) : list (option Context) :=
  match bs with
  | [] => []
  | call_WithMetaFromContext ctx :: bs' => ctx :: contexts_of bs'
  | _ :: bs' => contexts_of bs'
  end.

(** An [Error] as the constructors leave it and the builders keep it: both
    maps allocated. *)
Definition Error_ready (w : World) (l : loc) : Prop :=
  ∃ E d m, errs w !! l = Some E ∧
           details E = Some d ∧ is_Some (maps w !! d) ∧
           metadata E = Some m ∧ is_Some (maps w !! m).

(** The fields no builder writes. *)
Definition same_core (E E' : Error) : Prop :=
  code E' = code E ∧ message E' = message E ∧ cause E' = cause E ∧
  stackTrace E' = stackTrace E ∧ details E' = details E ∧ metadata E' = metadata E.

(** A node reached from [err] by unwrapping: through a foreign wrapper,
    into a part of a joined error, through the cause link of an
    [*Error]. *)
Inductive reach (w : World) : error → error → Prop :=
| reach_here err : reach w err err
| reach_wrap ty msg inner node :
    reach w inner node → reach w (wrapError ty msg inner) node
| reach_join ty errs e node :
    e ∈ errs → reach w e node → reach w (joinError ty errs) node
| reach_cause l E node :
    errs w !! l = Some E → reach w (cause E) node → reach w (ptrError (Some l)) node.

(** What a builder call on the [Error] at [l] may have changed between two
    stores: the fields of that [Error] other than its core (and the
    retryable flag only upwards) and the content of its own two maps.  No
    struct or map is allocated, no other struct or map written, no stack
    captured. *)
Definition builder_frame (l : loc) (w w' : World) : Prop :=
  (∃ E E', errs w !! l = Some E ∧ errs w' !! l = Some E' ∧ same_core E E' ∧
           (retryable E = true → retryable E' = true) ∧
           (∀ x, Some x ≠ details E → Some x ≠ metadata E →
                 maps w' !! x = maps w !! x)) ∧
  (∀ l', l' ≠ l → errs w' !! l' = errs w !! l') ∧
  dom (maps w') = dom (maps w) ∧
  callers_calls w' = callers_calls w.

(** * Properties *)

(** ** The store *)

Lemma fresh_loc_fresh {V} (h : gmap loc V) : h !! fresh_loc h = None.
Proof.
  apply not_elem_of_dom. intros Hin.
  apply elem_of_elements, max_list_elem_of_le in Hin.
  unfold fresh_loc in Hin. exact (Nat.nle_succ_diag_l _ Hin).
Qed.

Lemma fresh_loc_ne {V} (h : gmap loc V) l : is_Some (h !! l) → l ≠ fresh_loc h.
Proof. intros [v Hv] ->. rewrite fresh_loc_fresh in Hv. discriminate. Qed.

(** Unfolding of the monad operations. *)
Lemma bind_Ok {A B} (m : M A) (k : A → M B) w a w' :
  m w = Ok (a, w') → (m ≫= k) w = k a w'.
Proof. intros H. unfold mbind, M_bind. by rewrite H. Qed.

Lemma load_Some w l E : errs w !! l = Some E → load (Some l) w = Ok (E, w).
Proof. intros H. unfold load. by rewrite H. Qed.

Lemma map_assign_Some w l content k v :
  maps w !! l = Some content →
  map_assign (Some l) k v w = Ok (tt, set_maps <[l := <[k := v]> content]> w).
Proof. intros H. unfold map_assign. by rewrite H. Qed.

(** ** Chain traversal *)

Lemma error_nested_ind (P : error → Prop) :
  P nil_error →
  (∀ p, P (ptrError p)) →
  (∀ ty msg, P (leafError ty msg)) →
  (∀ ty msg err, P err → P (wrapError ty msg err)) →
  (∀ ty errs, Forall P errs → P (joinError ty errs)) →
  ∀ err, P err.
Proof.
  intros Hnil Hptr Hleaf Hwrap Hjoin.
  fix IH 1. intros [ | p | ty msg | ty msg err | ty errs].
  - exact Hnil.
  - apply Hptr.
  - apply Hleaf.
  - apply Hwrap, IH.
  - apply Hjoin. induction errs as [ | e errs IHerrs]; constructor.
    + apply IH.
    + exact IHerrs.
Qed.

Lemma first_Error_nil err : is_nil err = true → first_Error err = None.
Proof. by destruct err. Qed.

Lemma first_Error_wrap ty msg inner :
  first_Error (wrapError ty msg inner) = first_Error inner.
Proof. reflexivity. Qed.

Lemma first_Error_app (l1 l2 : list error) :
  head (omap ErrorValue_of (l1 ++ l2)) =
  match head (omap ErrorValue_of l1) with
  | Some p => Some p
  | None => head (omap ErrorValue_of l2)
  end.
Proof. rewrite omap_app. by destruct (omap ErrorValue_of l1). Qed.

(** The chain holds no ErrorValue exactly when the search finds none. *)
Lemma first_Error_None err :
  first_Error err = None ↔ ∀ p, ptrError p ∉ chain err.
Proof.
  unfold first_Error. generalize (chain err). intros l. split.
  - intros Hhd p Hin.
    assert (Hp : p ∈ omap ErrorValue_of l) by (apply list_elem_of_omap; eauto).
    destruct (omap ErrorValue_of l); [by apply elem_of_nil in Hp | discriminate].
  - intros Hno. destruct (omap ErrorValue_of l) as [ | p ps] eqn:Ho; [done | ].
    assert (Hp : p ∈ omap ErrorValue_of l) by (rewrite Ho; left).
    apply list_elem_of_omap in Hp as ([ | q | | | ] & Hin & Heq); try discriminate.
    by destruct (Hno q).
Qed.

Lemma first_Error_in_chain err p :
  first_Error err = Some p → ptrError p ∈ chain err.
Proof.
  unfold first_Error. intros Hhd.
  assert (Hp : p ∈ omap ErrorValue_of (chain err)).
  { destruct (omap ErrorValue_of (chain err)); [discriminate | ].
    injection Hhd as ->. left. }
  apply list_elem_of_omap in Hp as ([ | q | | | ] & Hin & Heq); try discriminate.
  by injection Heq as ->.
Qed.

(** A plain chain ends at its first [*Error] node: it holds at most one. *)
Lemma linear_chain_unique err q :
  linear err = true → ptrError q ∈ chain err → first_Error err = Some q.
Proof.
  induction err as [ | p | ty msg | ty msg err IH | ty errs _] using error_nested_ind;
    simpl; intros Hlin Hin.
  - by apply elem_of_nil in Hin.
  - apply list_elem_of_singleton in Hin. by injection Hin as ->.
  - apply list_elem_of_singleton in Hin. discriminate.
  - apply elem_of_cons in Hin as [Heq | Hin]; [discriminate | ].
    rewrite first_Error_wrap. by apply IH.
  - discriminate.
Qed.

Lemma errors_as_unfold fuel T w err :
  errors_as fuel T w err =
    if decide (type_of err = Some T) then Ok (Some err)
    else
      match err with
      | wrapError _ _ inner => if is_nil inner then Ok None else errors_as fuel T w inner
      | joinError _ errs => first_found (errors_as fuel T w) errs
      | ptrError p =>
          match Error_Unwrap p w with
          | Ok (c, _) =>
              if is_nil c then Ok None
              else match fuel with
                   | O => Diverge
                   | S fuel' => errors_as fuel' T w c
                   end
          | Panic => Panic
          | Diverge => Diverge
          end
      | _ => Ok None
      end.
Proof. destruct fuel, err; reflexivity. Qed.

(** For the target [*Error] the walk never steps through the store: it is
    the search for the first [*Error] node, whatever the fuel. *)
Lemma errors_as_TyError fuel w err :
  errors_as fuel TyError w err = Ok (ptrError <$> first_Error err).
Proof.
  induction err as [ | p | ty msg | ty msg err IH | ty errs IH] using error_nested_ind;
    rewrite errors_as_unfold; simpl; try done.
  - rewrite first_Error_wrap.
    destruct (is_nil err) eqn:Hn; [by rewrite first_Error_nil | exact IH].
  - unfold first_Error. simpl.
    induction IH as [ | e errs He _ IHerrs]; [done | ]. simpl.
    rewrite He, first_Error_app. fold (first_Error e).
    destruct (is_nil e) eqn:Hn.
    + by rewrite (first_Error_nil e Hn).
    + destruct (first_Error e); [done | exact IHerrs].
Qed.

(** *** The walk returns *)

Lemma allocated_lt_fresh {V} (h : gmap loc V) l : is_Some (h !! l) → l < fresh_loc h.
Proof.
  intros Hl. apply elem_of_dom, elem_of_elements, max_list_elem_of_le in Hl.
  unfold fresh_loc. exact (proj2 (Nat.lt_succ_r _ _) Hl).
Qed.

Lemma allocated_below_shrinks w l n :
  is_Some (errs w !! l) → l < n →
  size (allocated_below w l) < size (allocated_below w n).
Proof.
  intros Hl Hlt. apply subset_size. unfold allocated_below. split.
  - intros x [Hx Hdom]%elem_of_filter. apply elem_of_filter.
    split; [exact (Nat.lt_trans _ _ _ Hx Hlt) | done].
  - intros Hsub.
    assert (Hin : l ∈ filter (λ l0, l0 < l) (dom (errs w))).
    { apply Hsub, elem_of_filter. split; [done | by apply elem_of_dom]. }
    apply elem_of_filter in Hin as [Hin _]. exact (Nat.lt_irrefl _ Hin).
Qed.

Lemma first_found_returns (walk : error → Outcome (option error)) errs :
  Forall (λ e, walk e ≠ Diverge) errs → first_found walk errs ≠ Diverge.
Proof.
  induction 1 as [ | e errs He _ IH]; simpl; [done | ].
  destruct (is_nil e); [done | ]. by destruct (walk e) as [[ | ] | | ].
Qed.

Lemma chain_join_part ty errs e node :
  e ∈ errs → node ∈ chain e → node ∈ chain (joinError ty errs).
Proof.
  intros He Hnode. simpl. right.
  induction errs as [ | e' errs IH]; [by apply elem_of_nil in He | ].
  apply elem_of_app. apply elem_of_cons in He as [-> | He]; [by left | right; auto].
Qed.

(** With [fuel] for every allocated [Error] below the bound [n] of the
    pointers still ahead, the walk does not run out. *)
Lemma errors_as_returns T w :
  causes_older w →
  ∀ fuel n err,
    size (allocated_below w n) ≤ fuel →
    (∀ l, ptrError (Some l) ∈ chain err → l < n) →
    errors_as fuel T w err ≠ Diverge.
Proof.
  intros Hord fuel. induction fuel as [ | fuel IHfuel]; intros n err Hsize;
    induction err as [ | p | ty msg | ty msg err IH | ty errs IH] using error_nested_ind;
    intros Hptrs; rewrite errors_as_unfold;
    destruct (decide (type_of _ = Some T)) as [ | _]; simpl; try done.
  - (* no fuel, at an [*Error] node: nothing is allocated below the bound *)
    destruct p as [l | ]; [ | done]. unfold Error_Unwrap, mbind, M_bind, load.
    destruct (errs w !! l) as [E | ] eqn:Hl; [ | done]. simpl.
    destruct (is_nil (cause E)); [done | ].
    assert (Hlt : l < n) by (apply Hptrs; left).
    pose proof (allocated_below_shrinks w l n (mk_is_Some _ _ Hl) Hlt) as Hshrink.
    exfalso. exact (Nat.nlt_0_r _ (Nat.lt_le_trans _ _ _ Hshrink Hsize)).
  - destruct (is_nil err); [done | ]. apply IH. intros l Hl. apply Hptrs. by right.
  - apply first_found_returns. apply Forall_forall. intros e He.
    apply (proj1 (Forall_forall _ _) IH e He).
    intros l Hl. apply Hptrs. by apply (chain_join_part ty errs e).
  - destruct p as [l | ]; [ | done]. unfold Error_Unwrap, mbind, M_bind, load.
    destruct (errs w !! l) as [E | ] eqn:Hl; [ | done]. simpl.
    destruct (is_nil (cause E)); [done | ].
    assert (Hlt : l < n) by (apply Hptrs; left).
    pose proof (allocated_below_shrinks w l n (mk_is_Some _ _ Hl) Hlt) as Hshrink.
    apply (IHfuel l).
    + apply Nat.lt_succ_r. exact (Nat.lt_le_trans _ _ _ Hshrink Hsize).
    + intros l' Hl'. exact (Hord l E l' Hl Hl').
  - destruct (is_nil err); [done | ]. apply IH. intros l Hl. apply Hptrs. by right.
  - apply first_found_returns. apply Forall_forall. intros e He.
    apply (proj1 (Forall_forall _ _) IH e He).
    intros l Hl. apply Hptrs. by apply (chain_join_part ty errs e).
Qed.

(** In a store whose causes are older than what wraps them, [errors.As]
    returns or panics for every target type and every valid error: the
    step bound of [errors_As] is never the reason for an answer. *)
Lemma errors_As_returns T w err :
  causes_older w → error_valid w err → errors_As err T w ≠ Diverge.
Proof.
  intros Hord Hvalid. unfold errors_As.
  pose proof (errors_as_returns T w Hord (size (errs w)) (fresh_loc (errs w)) err) as Hret.
  destruct (errors_as (size (errs w)) T w err); try done.
  exfalso. apply Hret; [ | | done].
  - rewrite <- size_dom. apply subseteq_size. intros x Hx.
    by apply elem_of_filter in Hx as [_ Hx].
  - intros l Hl. by apply allocated_lt_fresh, Hvalid.
Qed.

(** [As] returns the first [*Error] node of the chain and a found flag,
    or nil and [false]; it never changes the store. *)
Lemma As_first_Error w err :
  As err w = Ok (match first_Error err with
                 | Some p => (p, true)
                 | None => (None, false)
                 end, w).
Proof.
  unfold As, AsType. destruct (is_nil err) eqn:Hn.
  - by rewrite (first_Error_nil err Hn).
  - unfold mbind, M_bind, errors_As. rewrite errors_as_TyError.
    by destruct (first_Error err).
Qed.

Lemma As_nil w : As nil_error w = Ok ((None, false), w).
Proof. by rewrite As_first_Error. Qed.

(** For any target shape: the nil error yields not-found, and the given
    value itself is the first node tested. *)
Lemma AsType_nil T w : AsType T nil_error w = Ok ((nil_error, false), w).
Proof. reflexivity. Qed.

Lemma AsType_here T err w :
  type_of err = Some T → AsType T err w = Ok ((err, true), w).
Proof.
  intros Hty. unfold AsType. destruct (is_nil err) eqn:Hn; [by destruct err | ].
  assert (Has : ∀ fuel, errors_as fuel T w err = Ok (Some err)).
  { intros fuel. destruct fuel, err; simpl in *;
      by (discriminate || rewrite decide_True). }
  unfold mbind, M_bind, errors_As. by rewrite Has.
Qed.

(** ** Constructors *)

(** What [newError] does to the store: two fresh empty maps, one capture,
    one fresh struct. *)
Lemma newError_run w c msg cause_ stack :
  let d := fresh_loc (maps w) in
  let m := fresh_loc (<[d := ∅]> (maps w)) in
  let l := fresh_loc (errs w) in
  let st := take maxDepth (drop stackSkipDepth
              (pc_Callers :: pc_captureStackTrace :: pc_newError :: stack)) in
  newError c msg cause_ stack w =
    Ok (Some l,
        mkWorld (<[l := mkError c msg "" cause_ "" [] (Some d) (Some m) st false]> (errs w))
                (<[m := ∅]> (<[d := ∅]> (maps w)))
                (S (callers_calls w))).
Proof. reflexivity. Qed.

Lemma newError_constructed w c msg cause_ pc stack :
  constructed w stack (newError c msg cause_ (pc :: stack) w).
Proof.
  rewrite newError_run. simpl.
  set (d := fresh_loc (maps w)). set (m := fresh_loc (<[d := ∅]> (maps w))).
  assert (Hdm : d ≠ m).
  { apply fresh_loc_ne. rewrite lookup_insert_eq. eauto. }
  eexists _, _, d, m, _. split; [reflexivity | ]. simpl.
  split; [apply fresh_loc_fresh | ].
  split; [apply lookup_insert_eq | ]. simpl.
  split; [done | ].
  split; [by rewrite lookup_insert_ne, lookup_insert_eq | ].
  split; [done | ].
  split; [by rewrite lookup_insert_eq | ].
  split; [done | ].
  split; [done | ].
  split; [done | ].
  rewrite length_take. unfold maxDepth. apply Nat.le_min_l.
Qed.

(** [newError] keeps causes older: the new struct is above everything
    allocated, its cause included. *)
Lemma newError_causes_older w w' e c msg cause_ stack :
  causes_older w → error_valid w cause_ →
  newError c msg cause_ stack w = Ok (e, w') →
  causes_older w'.
Proof.
  intros Hord Hvalid. rewrite newError_run. simpl. intros [= _ <-] l E l'. simpl.
  destruct (decide (fresh_loc (errs w) = l)) as [<- | Hne].
  - rewrite lookup_insert_eq. intros [= <-]. simpl. intros Hl'.
    by apply allocated_lt_fresh, Hvalid.
  - rewrite lookup_insert_ne by done. apply Hord.
Qed.

(** C1: when the unwrap chain of [err] contains an ErrorValue, [Ensure]
    returns that very instance, namely the pointer [p] carried by the first
    [*Error] node of the chain (on a plain chain, the only one), and leaves
    the store as it was: code, message, cause and every decoration of the
    instance are those it had before the call, and the fallback code and
    message are not used. *)
Theorem Ensure_returns_existing_instance w err c msg stack :
  (∃ q, ptrError q ∈ chain err) →
  ∃ p, first_Error err = Some p ∧ ptrError p ∈ chain err ∧
       Ensure err c msg stack w = Ok (p, w) ∧
       (linear err = true → ∀ q, ptrError q ∈ chain err → q = p).
Proof.
  intros [q Hq].
  destruct (first_Error err) as [p | ] eqn:Hfirst.
  - exists p. split; [done | ]. split; [by apply first_Error_in_chain | ]. split.
    + unfold Ensure. destruct (is_nil err) eqn:Hn.
      * rewrite (first_Error_nil err Hn) in Hfirst. discriminate.
      * rewrite (bind_Ok _ _ _ _ _ (As_first_Error w err)). by rewrite Hfirst.
    + intros Hlin q' Hq'. pose proof (linear_chain_unique err q' Hlin Hq') as Hu.
      congruence.
  - destruct (proj1 (first_Error_None err) Hfirst q Hq).
Qed.

(** C2: when the unwrap chain of a non-absent [err] contains no ErrorValue,
    [Ensure] builds a new [Error] (at an address not allocated before, the
    existing structs untouched) whose code is the fallback code, whose
    message is the fallback message and whose cause is [err]; and [Ensure]
    of the nil error is nil. *)
Theorem Ensure_wraps_unknown_shape w err c msg stack :
  (err ≠ nil_error → (∀ p, ptrError p ∉ chain err) →
   ∃ l E w',
     Ensure err c msg stack w = Ok (Some l, w') ∧
     errs w !! l = None ∧ errs w' = <[l := E]> (errs w) ∧
     code E = c ∧ message E = msg ∧ cause E = err) ∧
  Ensure nil_error c msg stack w = Ok (None, w).
Proof.
  split; [ | reflexivity].
  intros Hnn Hno. apply first_Error_None in Hno.
  unfold Ensure. destruct (is_nil err) eqn:Hn; [by destruct err | ].
  rewrite (bind_Ok _ _ _ _ _ (As_first_Error w err)), Hno.
  rewrite newError_run. simpl.
  eexists _, _, _. split; [reflexivity | ]. simpl.
  split; [apply fresh_loc_fresh | done].
Qed.

(** C6: for two constructed ErrorValues [a] and [b] the comparison
    [a.Is(b)] is [true] exactly when their codes are equal, whatever their
    other fields; and the absent ErrorValue is equivalent to a target only
    when that target is absent, never to a constructed ErrorValue. *)
Theorem Error_Is_iff_codes_equal w :
  (∀ a b A B, errs w !! a = Some A → errs w !! b = Some B →
     ∃ r, Error_Is (Some a) (ptrError (Some b)) w = Ok (r, w) ∧
          (r = true ↔ code A = code B)) ∧
  (∀ target, Error_Is None target w = Ok (true, w) ↔ target = nil_error) ∧
  (∀ b, Error_Is None (ptrError (Some b)) w = Ok (false, w)).
Proof.
  split; [ | split].
  - intros a b A B Ha Hb. exists (bool_decide (code A = code B)). split.
    + unfold Error_Is.
      rewrite (bind_Ok _ _ _ _ _ (load_Some w a A Ha)).
      by rewrite (bind_Ok _ _ _ _ _ (load_Some w b B Hb)).
    + apply bool_decide_eq_true.
  - intros target. destruct target; simpl; split; try done; intros [=].
  - reflexivity.
Qed.

(** A call of [newError] through a public constructor, as the callers of
    the constructor see it. *)
Lemma newError_fresh w c msg cause_ stack :
  ∃ E w',
    newError c msg cause_ stack w = Ok (Some (fresh_loc (errs w)), w') ∧
    errs w' = <[fresh_loc (errs w) := E]> (errs w) ∧
    code E = c ∧ message E = msg ∧ cause E = cause_.
Proof. rewrite newError_run. simpl. by eexists _, _. Qed.

Lemma CodeOf_ptr w l E :
  errs w !! l = Some E → CodeOf (ptrError (Some l)) w = Ok (code E, w).
Proof.
  intros Hl. unfold CodeOf.
  rewrite (bind_Ok _ _ _ _ _ (As_first_Error _ _)). simpl.
  by rewrite (bind_Ok _ _ _ _ _ (load_Some w l E Hl)).
Qed.

(** C7: on [Wrap(Wrap(base, c2, m2), c1, m1)] the outer call builds a new
    node, distinct from the inner one and not allocated before the calls;
    [CodeOf] of the outer value is [c1] and [As] of the outer value returns
    the outer node itself with the found flag set.  In general [As] returns
    the first ErrorValue of the chain, and not-found on the nil error. *)
Theorem Wrap_Wrap_outer_is_first w base c1 c2 m1 m2 stack1 stack2 :
  (∃ inner outer w',
     (i ← Wrap base c2 m2 stack2; o ← Wrap (ptrError i) c1 m1 stack1; mret (i, o)) w
       = Ok ((inner, Some outer), w') ∧
     inner ≠ Some outer ∧ errs w !! outer = None ∧
     (∃ O, errs w' !! outer = Some O ∧ code O = c1 ∧ cause O = ptrError inner) ∧
     CodeOf (ptrError (Some outer)) w' = Ok (c1, w') ∧
     As (ptrError (Some outer)) w' = Ok ((Some outer, true), w')) ∧
  (∀ err, As err w = Ok (match first_Error err with
                         | Some p => (p, true)
                         | None => (None, false)
                         end, w)) ∧
  As nil_error w = Ok ((None, false), w).
Proof.
  split; [ | split; [intros; apply As_first_Error | apply As_nil]].
  assert (Hinner : ∃ inner w1,
    Wrap base c2 m2 stack2 w = Ok (inner, w1) ∧
    inner ≠ Some (fresh_loc (errs w1)) ∧
    errs w !! fresh_loc (errs w1) = None).
  { unfold Wrap. destruct (is_nil base).
    - exists None, w. split; [reflexivity | ].
      split; [discriminate | apply fresh_loc_fresh].
    - destruct (newError_fresh w c2 m2 base (pc_Wrap :: stack2))
        as (E & w1 & Hrun & Herrs & _).
      exists (Some (fresh_loc (errs w))), w1. split; [done | ].
      assert (Hin : is_Some (errs w1 !! fresh_loc (errs w))).
      { rewrite Herrs, lookup_insert_eq. eauto. }
      split.
      + intros Heq. apply (fresh_loc_ne _ _ Hin). congruence.
      + rewrite <- (lookup_insert_ne (errs w) (fresh_loc (errs w)) _ E)
          by exact (fresh_loc_ne _ _ Hin).
        rewrite <- Herrs. apply fresh_loc_fresh. }
  destruct Hinner as (inner & w1 & Hrun1 & Hne & Hnew).
  destruct (newError_fresh w1 c1 m1 (ptrError inner) (pc_Wrap :: stack1))
    as (O & w2 & Hrun2 & Herrs & Hc & _ & Hcause).
  assert (HO : errs w2 !! fresh_loc (errs w1) = Some O).
  { by rewrite Herrs, lookup_insert_eq. }
  exists inner, (fresh_loc (errs w1)), w2. split.
  { rewrite (bind_Ok _ _ _ _ _ Hrun1).
    unfold Wrap at 1. simpl. by rewrite (bind_Ok _ _ _ _ _ Hrun2). }
  split; [done | ]. split; [done | ].
  split; [by exists O | ].
  split.
  - by rewrite (CodeOf_ptr _ _ _ HO), Hc.
  - by rewrite As_first_Error.
Qed.

(** The nil receiver: every reader answers the zero value and every
    builder call returns nil, without touching the store. *)
Lemma nil_receiver_total w :
  Error_Code None w = Ok (CodeUnknown, w) ∧
  Error_Error None w = Ok ("", w) ∧
  Error_Unwrap None w = Ok (nil_error, w) ∧
  Error_Source None w = Ok ("", w) ∧
  Error_Tags None w = Ok ([], w) ∧
  Error_Details None w = Ok (None, w) ∧
  Error_Metadata None w = Ok (None, w) ∧
  Error_StackTrace None w = Ok ([], w) ∧
  Error_IsRetryable None w = Ok (false, w) ∧
  (∀ k v, Error_WithDetail None k v w = Ok (None, w)) ∧
  (∀ k v, Error_WithMeta None k v w = Ok (None, w)) ∧
  (∀ ctx, Error_WithMetaFromContext None ctx w = Ok (None, w)) ∧
  (∀ msg, Error_WithDebug None msg w = Ok (None, w)) ∧
  (∀ src, Error_WithSource None src w = Ok (None, w)) ∧
  (∀ ts, Error_WithTags None ts w = Ok (None, w)) ∧
  Error_WithRetryable None w = Ok (None, w).
Proof. repeat split. Qed.

(** The readers that take the field through the pointer [As] returns
    panic on an absent-but-typed [*Error], which [As] reports as found. *)
Lemma CodeOf_typed_nil_panics w c codes :
  CodeOf (ptrError None) w = Panic ∧
  CodeIs (ptrError None) c w = Panic ∧
  CodeIn (ptrError None) codes w = Panic.
Proof.
  unfold CodeOf, CodeIs, CodeIn.
  by rewrite !(bind_Ok _ _ _ _ _ (As_first_Error w (ptrError None))).
Qed.

(** [IsRetryable] goes through the nil-tolerant method instead. *)
Lemma IsRetryable_typed_nil w : IsRetryable (ptrError None) w = Ok (false, w).
Proof.
  unfold IsRetryable.
  by rewrite (bind_Ok _ _ _ _ _ (As_first_Error w (ptrError None))).
Qed.

(** C8 (failing input): [Is] called on a constructed ErrorValue with an
    absent-but-typed [*Error] as target passes the type assertion and then
    reads [t.code] through the nil pointer: the call panics. *)
Theorem Error_Is_typed_nil_target_panics w a A :
  errs w !! a = Some A →
  Error_Is (Some a) (ptrError None) w = Panic.
Proof.
  intros Ha. unfold Error_Is.
  by rewrite (bind_Ok _ _ _ _ _ (load_Some w a A Ha)).
Qed.

(** After construction no builder call captures again or touches the
    trace. *)
Lemma map_assign_frame m k v w w' :
  map_assign m k v w = Ok (tt, w') →
  errs w' = errs w ∧ callers_calls w' = callers_calls w.
Proof.
  unfold map_assign. destruct m as [l | ]; [ | done].
  destruct (maps w !! l); [ | done]. by intros [= <-].
Qed.

Lemma range_assign_frame entries m w w' :
  range_assign entries m w = Ok (tt, w') →
  errs w' = errs w ∧ callers_calls w' = callers_calls w.
Proof.
  revert w. induction entries as [ | [k v] entries IH]; intros w; simpl.
  - by intros [= <-].
  - unfold mbind, M_bind.
    destruct (map_assign m k v w) as [[[] w1] | | ] eqn:Hassign; try done.
    intros Hrest. apply IH in Hrest as [-> ->]. by apply map_assign_frame in Hassign.
Qed.

Lemma modify_keeps_stack l w f :
  (∀ E, stackTrace (f E) = stackTrace E) →
  keeps_stack l w ((modify (Some l) f ;; ret (Some l)) w).
Proof.
  intros Hf e w'. unfold mbind, M_bind, modify.
  destruct (errs w !! l) as [E | ] eqn:Hl; [ | done].
  intros [= _ <-]. simpl. split; [done | ].
  rewrite lookup_insert_eq. simpl. by rewrite Hf.
Qed.

Lemma mutators_never_recapture l w :
  (∀ k v, keeps_stack l w (Error_WithDetail (Some l) k v w)) ∧
  (∀ k v, keeps_stack l w (Error_WithMeta (Some l) k v w)) ∧
  (∀ ctx, keeps_stack l w (Error_WithMetaFromContext (Some l) ctx w)) ∧
  (∀ msg, keeps_stack l w (Error_WithDebug (Some l) msg w)) ∧
  (∀ src, keeps_stack l w (Error_WithSource (Some l) src w)) ∧
  (∀ ts, keeps_stack l w (Error_WithTags (Some l) ts w)) ∧
  keeps_stack l w (Error_WithRetryable (Some l) w).
Proof.
  assert (Hmap : ∀ (field : Error → option loc) k v,
    keeps_stack l w ((E ← load (Some l); map_assign (field E) k v ;; ret (Some l)) w)).
  { intros field k v e w'. unfold mbind, M_bind, load.
    destruct (errs w !! l) as [E | ] eqn:Hl; [ | done].
    destruct (map_assign (field E) k v w) as [[[] w1] | | ] eqn:Hassign; try done.
    intros [= _ <-]. apply map_assign_frame in Hassign as [-> ->].
    by rewrite Hl. }
  split; [intros; apply Hmap | ].
  split; [intros; apply Hmap | ].
  split.
  { intros ctx e w'. unfold Error_WithMetaFromContext, mbind, M_bind.
    destruct (map_entries (getCtxMeta ctx) w) as [[entries w0] | | ] eqn:Hentries;
      try done.
    assert (w0 = w) as ->.
    { unfold map_entries in Hentries. destruct (getCtxMeta ctx) as [s | ].
      - destruct (maps w !! s); [ | done]. by injection Hentries as _ <-.
      - by injection Hentries as _ <-. }
    unfold load. destruct (errs w !! l) as [E | ] eqn:Hl; [ | done].
    destruct (range_assign entries (metadata E) w) as [[[] w1] | | ] eqn:Hrange;
      try done.
    intros [= _ <-]. apply range_assign_frame in Hrange as [-> ->].
    by rewrite Hl. }
  split; [intros msg; by apply modify_keeps_stack | ].
  split; [intros src; by apply modify_keeps_stack | ].
  split; [intros ts; by apply modify_keeps_stack | ].
  by apply modify_keeps_stack.
Qed.

(** C9: every [Error] built by a constructor ([New], [Newf], [Wrap] and
    [Wrapf] of a non-nil error, the fallback branch of [Ensure]) is a new
    struct whose [details] and [metadata] are allocated, empty maps (never
    the nil map), and whose stack trace was captured by exactly one call of
    [runtime.Callers] during the construction and holds at most 32
    frames. *)
Theorem constructors_build_complete_values w c msg stack :
  constructed w stack (New c msg stack w) ∧
  (∀ Sprintf args, constructed w stack (Newf Sprintf c msg args stack w)) ∧
  (∀ err, err ≠ nil_error → constructed w stack (Wrap err c msg stack w)) ∧
  (∀ Sprintf err args, err ≠ nil_error →
     constructed w stack (Wrapf Sprintf err c msg args stack w)) ∧
  (∀ err, err ≠ nil_error → (∀ p, ptrError p ∉ chain err) →
     constructed w stack (Ensure err c msg stack w)).
Proof.
  split; [apply newError_constructed | ].
  split; [intros; apply newError_constructed | ].
  split; [ | split].
  - intros err Hnn. unfold Wrap.
    destruct (is_nil err) eqn:Hn; [by destruct err | apply newError_constructed].
  - intros Sprintf err args Hnn. unfold Wrapf.
    destruct (is_nil err) eqn:Hn; [by destruct err | apply newError_constructed].
  - intros err Hnn Hno. apply first_Error_None in Hno. unfold Ensure.
    destruct (is_nil err) eqn:Hn; [by destruct err | ].
    rewrite (bind_Ok _ _ _ _ _ (As_first_Error w err)), Hno.
    apply newError_constructed.
Qed.

(** C10: [IsRetryable] consults the first ErrorValue of the chain and
    nothing else.  Its answer is the retryable flag of that value, read in
    the store as it is and leaving it unchanged; the same holds in every
    other store in which that value carries the same flag, whatever the
    flags of the other ErrorValues there; so when the first one is not
    retryable the answer is [false], also where an ErrorValue behind its
    cause link is retryable. *)
Theorem IsRetryable_reads_first_only w err l E :
  first_Error err = Some (Some l) →
  errs w !! l = Some E →
  IsRetryable err w = Ok (retryable E, w) ∧
  (∀ w' E', errs w' !! l = Some E' → retryable E' = retryable E →
            IsRetryable err w' = Ok (retryable E, w')) ∧
  (retryable E = false →
   ∀ l' E', reach w (cause E) (ptrError (Some l')) → errs w !! l' = Some E' →
            retryable E' = true → IsRetryable err w = Ok (false, w)).
Proof.
  intros Hfirst Hl.
  assert (Hread : ∀ w' E', errs w' !! l = Some E' →
                           IsRetryable err w' = Ok (retryable E', w')).
  { intros w' E' Hl'. unfold IsRetryable.
    rewrite (bind_Ok _ _ _ _ _ (As_first_Error w' err)), Hfirst. simpl.
    unfold Error_IsRetryable.
    by rewrite (bind_Ok _ _ _ _ _ (load_Some w' l E' Hl')). }
  split; [by apply Hread | ]. split.
  - intros w' E' Hl' <-. by apply Hread.
  - intros Hr l' E' _ _ _. rewrite <- Hr. by apply Hread.
Qed.

(** ** Metadata maps and the propagation context *)

Lemma set_maps_id w l content :
  maps w !! l = Some content → set_maps <[l := content]> w = w.
Proof. intros H. destruct w. unfold set_maps. simpl in *. by rewrite insert_id. Qed.

Lemma set_maps_twice w l c1 c2 :
  set_maps <[l := c2]> (set_maps <[l := c1]> w) = set_maps <[l := c2]> w.
Proof. unfold set_maps. simpl. by rewrite insert_insert_eq. Qed.

(** Assigning a list of entries in order is a merge in which later entries
    win over earlier ones and over the old content. *)
Lemma foldl_put_union (entries : list (string * any)) (content : gmap string any) :
  foldl put content entries = list_to_map (reverse entries) ∪ content.
Proof.
  revert content. induction entries as [ | [k v] entries IH]; intros content; simpl.
  - by rewrite (left_id_L ∅ (∪) content).
  - rewrite IH, reverse_cons, list_to_map_app. unfold put. simpl.
    rewrite <- (assoc_L (∪)). f_equal.
    by rewrite insert_union_singleton_l, insert_empty.
Qed.

(** Copying the entries of a map, in whatever order they are visited, is
    the merge of that map over the old content. *)
Lemma foldl_put_permutation (entries : list (string * any)) (src content : gmap string any) :
  entries ≡ₚ map_to_list src → foldl put content entries = src ∪ content.
Proof.
  intros Hperm. rewrite foldl_put_union. f_equal.
  rewrite <- (list_to_map_to_list src).
  symmetry. apply list_to_map_proper.
  - apply NoDup_fst_map_to_list.
  - by rewrite reverse_Permutation, Hperm.
Qed.

Lemma foldl_put_map_to_list (src content : gmap string any) :
  foldl put content (map_to_list src) = src ∪ content.
Proof. by apply foldl_put_permutation. Qed.

(** [spec_attach] read key by key: a key no supplied pair names keeps the
    parent's entry; otherwise the last supplied pair with that key wins. *)
Lemma spec_attach_lookup_parent parent keyvals s :
  s ∉ (spec_string_pairs (spec_pairs keyvals)).*1 →
  spec_attach parent keyvals !! s = parent !! s.
Proof.
  intros Hs. unfold spec_attach. apply lookup_union_r.
  apply not_elem_of_list_to_map_1. rewrite fmap_reverse.
  by rewrite elem_of_reverse.
Qed.

Lemma spec_attach_lookup_last parent keyvals s v before after :
  spec_string_pairs (spec_pairs keyvals) = before ++ (s, v) :: after →
  s ∉ after.*1 →
  spec_attach parent keyvals !! s = Some v.
Proof.
  intros Hsplit Hs. unfold spec_attach. apply lookup_union_Some_l.
  rewrite Hsplit, reverse_app, reverse_cons, <- (assoc_L (++)), list_to_map_app.
  rewrite lookup_union_r.
  - simpl. apply lookup_insert_eq.
  - apply not_elem_of_list_to_map_1. rewrite fmap_reverse.
    by rewrite elem_of_reverse.
Qed.

Lemma range_assign_run entries w l content :
  maps w !! l = Some content →
  range_assign entries (Some l) w
    = Ok (tt, set_maps <[l := foldl put content entries]> w).
Proof.
  revert w content. induction entries as [ | [k v] entries IH]; intros w content Hl; simpl.
  - by rewrite (set_maps_id _ _ _ Hl).
  - rewrite (bind_Ok _ _ _ _ _ (map_assign_Some w l content k v Hl)).
    rewrite (IH _ (<[k := v]> content)); [ | simpl; apply lookup_insert_eq].
    by rewrite set_maps_twice.
Qed.

Lemma spec_pairs_short (keyvals : list any) :
  length keyvals ≤ 1 → spec_pairs keyvals = [].
Proof. destruct keyvals as [ | k [ | v rest]]; simpl; [done | done | lia]. Qed.

(** The loop applies the string-keyed pairs from index [i] on, in order. *)
Lemma keyvals_loop_run fuel keyvals i w l content :
  maps w !! l = Some content →
  length keyvals ≤ i + 2 * fuel →
  keyvals_loop fuel keyvals i (Some l) w
    = Ok (tt, set_maps
                <[l := foldl put content (spec_string_pairs (spec_pairs (drop i keyvals)))]> w).
Proof.
  revert i w content. induction fuel as [ | fuel IH]; intros i w content Hl Hfuel.
  - simpl. destruct (Z.ltb_spec (Z.of_nat i) (Z.of_nat (length keyvals) - 1)); [lia | ].
    rewrite spec_pairs_short by (rewrite length_drop; lia).
    simpl. by rewrite (set_maps_id _ _ _ Hl).
  - simpl. destruct (Z.ltb_spec (Z.of_nat i) (Z.of_nat (length keyvals) - 1)) as [Hlt | Hge].
    + destruct (lookup_lt_is_Some_2 keyvals i) as [k Hk]; [lia | ].
      destruct (lookup_lt_is_Some_2 keyvals (i + 1)) as [v Hv]; [lia | ].
      rewrite Hk, Hv.
      rewrite (drop_S _ _ _ Hk). replace (S i) with (i + 1) by lia.
      rewrite (drop_S _ _ _ Hv). replace (S (i + 1)) with (i + 2) by lia.
      destruct k as [ | b | z | s]; simpl;
        try (apply IH; [done | lia]).
      rewrite (bind_Ok _ _ _ _ _ (map_assign_Some w l content s v Hl)).
      rewrite (IH _ _ (<[s := v]> content)); [ | simpl; apply lookup_insert_eq | lia].
      by rewrite set_maps_twice.
    + rewrite spec_pairs_short by (rewrite length_drop; lia).
      simpl. by rewrite (set_maps_id _ _ _ Hl).
Qed.

Lemma ctx_valid_content w ctx l :
  ctx_valid w ctx → getCtxMeta ctx = Some l →
  maps w !! l = Some (snapshot w ctx).
Proof.
  intros Hv Hl. destruct (Hv l Hl) as [content Hc].
  unfold snapshot. rewrite Hl. simpl. by rewrite Hc.
Qed.

(** What [WithMetaContext] does on a non-nil, valid parent: one fresh map
    holding the merge, stored under the private key in a child context. *)
Lemma WithMetaContext_run w parent keyvals :
  ctx_valid w (Some parent) →
  let l := fresh_loc (maps w) in
  WithMetaContext (Some parent) keyvals w
    = Ok (Some (valueCtx parent errxCtxKey (ctx_map (Some l))),
          set_maps <[l := spec_attach (snapshot w (Some parent)) keyvals]> w).
Proof.
  intros Hv l. unfold WithMetaContext.
  assert (Hmake : map_make w = Ok (Some l, set_maps <[l := ∅]> w)) by reflexivity.
  rewrite (bind_Ok _ _ _ _ _ Hmake).
  assert (Hentries : map_entries (getCtxMeta (Some parent)) (set_maps <[l := ∅]> w)
            = Ok (map_to_list (snapshot w (Some parent)), set_maps <[l := ∅]> w)).
  { destruct (getCtxMeta (Some parent)) as [lp | ] eqn:Hp.
    - pose proof (ctx_valid_content _ _ _ Hv Hp) as Hc.
      unfold map_entries. simpl.
      rewrite lookup_insert_ne, Hc; [done | ].
      apply not_eq_sym, fresh_loc_ne. eauto.
    - unfold snapshot. rewrite Hp. simpl. by rewrite map_to_list_empty. }
  rewrite (bind_Ok _ _ _ _ _ Hentries).
  erewrite bind_Ok; [ | apply range_assign_run; simpl; apply lookup_insert_eq].
  rewrite set_maps_twice, foldl_put_map_to_list.
  rewrite (right_id_L ∅ (∪) (snapshot w (Some parent))).
  erewrite bind_Ok;
    [ | apply keyvals_loop_run; [simpl; apply lookup_insert_eq | lia]].
  rewrite set_maps_twice, drop_0, foldl_put_union.
  reflexivity.
Qed.

(** C3: deriving a child from a parent context never mutates the parent's
    snapshot: the call returns a child, and reading the parent afterwards
    gives the mapping it held before, for every key/value list; indeed
    every map allocated before the call keeps its content. *)
Theorem WithMetaContext_preserves_parent w parent keyvals :
  ctx_valid w (Some parent) →
  ∃ child w',
    WithMetaContext (Some parent) keyvals w = Ok (Some child, w') ∧
    snapshot w' (Some parent) = snapshot w (Some parent) ∧
    (∀ l, is_Some (maps w !! l) → maps w' !! l = maps w !! l).
Proof.
  intros Hv. rewrite (WithMetaContext_run _ _ _ Hv).
  generalize (spec_attach (snapshot w (Some parent)) keyvals). intros merged.
  eexists _, _. split; [reflexivity | ].
  assert (Hframe : ∀ l, is_Some (maps w !! l) →
    maps (set_maps <[fresh_loc (maps w) := merged]> w) !! l = maps w !! l).
  { intros l Hl. simpl. apply lookup_insert_ne, not_eq_sym, fresh_loc_ne, Hl. }
  split; [ | exact Hframe].
  unfold snapshot, map_content.
  destruct (getCtxMeta (Some parent)) as [lp | ] eqn:Hp; [ | done].
  f_equal. exact (Hframe lp (Hv lp Hp)).
Qed.

(** C4: reading the child produced by [WithMetaContext] gives the parent's
    snapshot (empty when the parent has none) merged with the supplied
    pairs: a supplied pair wins over the parent's entry, the last pair wins
    among duplicates, a pair whose key is not a string is dropped and so is
    a trailing key without a value. *)
Theorem WithMetaContext_child_snapshot w parent keyvals :
  ctx_valid w (Some parent) →
  ∃ child w',
    WithMetaContext (Some parent) keyvals w = Ok (Some child, w') ∧
    snapshot w' (Some child) = spec_attach (snapshot w (Some parent)) keyvals.
Proof.
  intros Hv. rewrite (WithMetaContext_run _ _ _ Hv).
  eexists _, _. split; [reflexivity | ].
  unfold snapshot at 1. simpl. by rewrite lookup_insert_eq.
Qed.

Lemma Error_WithMeta_run w l E m content k v :
  errs w !! l = Some E → metadata E = Some m → maps w !! m = Some content →
  Error_WithMeta (Some l) k v w
    = Ok (Some l, set_maps <[m := <[k := v]> content]> w).
Proof.
  intros Hl Hm Hc. unfold Error_WithMeta.
  rewrite (bind_Ok _ _ _ _ _ (load_Some w l E Hl)), Hm.
  by rewrite (bind_Ok _ _ _ _ _ (map_assign_Some w m content k v Hc)).
Qed.

Lemma Error_WithMetaFromContext_run w l E m content ctx s snap :
  errs w !! l = Some E → metadata E = Some m → maps w !! m = Some content →
  getCtxMeta ctx = Some s → maps w !! s = Some snap →
  Error_WithMetaFromContext (Some l) ctx w
    = Ok (Some l, set_maps <[m := snap ∪ content]> w).
Proof.
  intros Hl Hm Hc Hs Hsnap. unfold Error_WithMetaFromContext.
  assert (Hentries : map_entries (getCtxMeta ctx) w = Ok (map_to_list snap, w)).
  { rewrite Hs. unfold map_entries. by rewrite Hsnap. }
  rewrite (bind_Ok _ _ _ _ _ Hentries).
  rewrite (bind_Ok _ _ _ _ _ (load_Some w l E Hl)), Hm.
  rewrite (bind_Ok _ _ _ _ _ (range_assign_run _ w m content Hc)).
  by rewrite foldl_put_map_to_list.
Qed.

Lemma metadata_at_set_maps w l E m content k :
  errs w !! l = Some E → metadata E = Some m →
  metadata_at (set_maps <[m := content]> w) (Some l) k = content !! k.
Proof.
  intros Hl Hm. unfold metadata_at, Error_Metadata.
  rewrite (bind_Ok _ _ _ _ _ (load_Some (set_maps _ w) l E Hl)), Hm.
  simpl. by rewrite lookup_insert_eq.
Qed.

(** C5: on an ErrorValue [l] whose metadata map is allocated, and a context
    whose snapshot (a different map object) binds [k] to [Y]:
    [WithMeta(k, X)] followed by [WithMetaFromContext(ctx)] leaves
    [metadata[k] = Y], the reverse order leaves [metadata[k] = X]. *)
Theorem metadata_precedence_by_call_order w l E m content ctx s snap k X Y :
  errs w !! l = Some E → metadata E = Some m → maps w !! m = Some content →
  getCtxMeta ctx = Some s → maps w !! s = Some snap → snap !! k = Some Y →
  m ≠ s →
  (∃ w',
     (e ← Error_WithMeta (Some l) k X; Error_WithMetaFromContext e ctx) w
       = Ok (Some l, w') ∧
     metadata_at w' (Some l) k = Some Y) ∧
  (∃ w',
     (e ← Error_WithMetaFromContext (Some l) ctx; Error_WithMeta e k X) w
       = Ok (Some l, w') ∧
     metadata_at w' (Some l) k = Some X).
Proof.
  intros Hl Hm Hc Hs Hsnap HY Hne. split.
  - rewrite (bind_Ok _ _ _ _ _ (Error_WithMeta_run w l E m content k X Hl Hm Hc)).
    erewrite (Error_WithMetaFromContext_run _ l E m _ ctx s snap); try done.
    + eexists. split; [reflexivity | ].
      rewrite set_maps_twice, (metadata_at_set_maps w l E m _ k Hl Hm).
      by apply lookup_union_Some_l.
    + simpl. apply lookup_insert_eq.
    + simpl. by rewrite lookup_insert_ne.
  - rewrite (bind_Ok _ _ _ _ _
      (Error_WithMetaFromContext_run w l E m content ctx s snap Hl Hm Hc Hs Hsnap)).
    erewrite (Error_WithMeta_run _ l E m); try done.
    + eexists. split; [reflexivity | ].
      rewrite set_maps_twice, (metadata_at_set_maps w l E m _ k Hl Hm).
      apply lookup_insert_eq.
    + simpl. apply lookup_insert_eq.
Qed.

(** ** Instances on the sample store *)

Lemma Ensure_returns_existing_instance_witness :
  ∃ p, first_Error (wrapError 0 "outer" (ptrError (Some 2))) = Some p ∧
       ptrError p ∈ chain (wrapError 0 "outer" (ptrError (Some 2))) ∧
       Ensure (wrapError 0 "outer" (ptrError (Some 2))) CodeInternal "x" [] sample_world
         = Ok (p, sample_world) ∧
       (linear (wrapError 0 "outer" (ptrError (Some 2))) = true →
        ∀ q, ptrError q ∈ chain (wrapError 0 "outer" (ptrError (Some 2))) → q = p).
Proof.
  apply (Ensure_returns_existing_instance sample_world
           (wrapError 0 "outer" (ptrError (Some 2))) CodeInternal "x" []).
  exists (Some 2). simpl. right. left.
Defined.

Lemma Ensure_wraps_unknown_shape_witness :
  ∃ l E w',
    Ensure (leafError 0 "plain") CodeInternal "x" [] sample_world = Ok (Some l, w') ∧
    errs sample_world !! l = None ∧ errs w' = <[l := E]> (errs sample_world) ∧
    code E = CodeInternal ∧ message E = "x" ∧ cause E = leafError 0 "plain".
Proof.
  apply (proj1 (Ensure_wraps_unknown_shape sample_world (leafError 0 "plain")
                  CodeInternal "x" [])).
  - discriminate.
  - intros p Hin. simpl in Hin. apply list_elem_of_singleton in Hin. discriminate.
Defined.

Lemma sample_ctx_valid : ctx_valid sample_world (Some sample_ctx).
Proof. intros l [= <-]. vm_compute. eauto. Defined.

Lemma WithMetaContext_preserves_parent_witness :
  ctx_valid sample_world (Some sample_ctx) ∧
  ∃ child w',
    WithMetaContext (Some sample_ctx) sample_keyvals sample_world = Ok (Some child, w') ∧
    snapshot w' (Some sample_ctx) = snapshot sample_world (Some sample_ctx) ∧
    (∀ l, is_Some (maps sample_world !! l) → maps w' !! l = maps sample_world !! l).
Proof.
  split; [exact sample_ctx_valid | ].
  exact (WithMetaContext_preserves_parent sample_world sample_ctx sample_keyvals
           sample_ctx_valid).
Defined.

Lemma WithMetaContext_child_snapshot_witness :
  ctx_valid sample_world (Some sample_ctx) ∧
  ∃ child w',
    WithMetaContext (Some sample_ctx) sample_keyvals sample_world = Ok (Some child, w') ∧
    snapshot w' (Some child)
      = spec_attach (snapshot sample_world (Some sample_ctx)) sample_keyvals.
Proof.
  split; [exact sample_ctx_valid | ].
  exact (WithMetaContext_child_snapshot sample_world sample_ctx sample_keyvals
           sample_ctx_valid).
Defined.

Lemma metadata_precedence_by_call_order_witness :
  (∃ w',
     (e ← Error_WithMeta (Some 2) "k" (any_int 9);
      Error_WithMetaFromContext e (Some sample_ctx)) sample_world = Ok (Some 2, w') ∧
     metadata_at w' (Some 2) "k" = Some (any_int 7)) ∧
  (∃ w',
     (e ← Error_WithMetaFromContext (Some 2) (Some sample_ctx);
      Error_WithMeta e "k" (any_int 9)) sample_world = Ok (Some 2, w') ∧
     metadata_at w' (Some 2) "k" = Some (any_int 9)).
Proof.
  apply (metadata_precedence_by_call_order sample_world 2 sample_outer 4 ∅
           (Some sample_ctx) 5 (<["k" := any_int 7]> ∅) "k" (any_int 9) (any_int 7));
    try reflexivity.
  lia.
Defined.

Lemma Error_Is_iff_codes_equal_witness :
  ∃ r, Error_Is (Some 1) (ptrError (Some 2)) sample_world = Ok (r, sample_world) ∧
       (r = true ↔ code sample_inner = code sample_outer).
Proof.
  apply (proj1 (Error_Is_iff_codes_equal sample_world) 1 2 sample_inner sample_outer);
    reflexivity.
Defined.

Lemma Error_Is_typed_nil_target_panics_witness :
  errs sample_world !! 1 = Some sample_inner ∧
  Error_Is (Some 1) (ptrError None) sample_world = Panic.
Proof.
  split; [reflexivity | ].
  apply (Error_Is_typed_nil_target_panics sample_world 1 sample_inner). reflexivity.
Defined.

Lemma constructors_build_complete_values_witness :
  constructed sample_world [100%N]
    (Wrap (leafError 0 "plain") CodeInternal "x" [100%N] sample_world) ∧
  constructed sample_world [100%N]
    (Ensure (leafError 0 "plain") CodeInternal "x" [100%N] sample_world).
Proof.
  destruct (constructors_build_complete_values sample_world CodeInternal "x" [100%N])
    as (_ & _ & HWrap & _ & HEnsure).
  split.
  - apply HWrap. discriminate.
  - apply HEnsure; [discriminate | ].
    intros p Hin. simpl in Hin. apply list_elem_of_singleton in Hin. discriminate.
Defined.

Lemma IsRetryable_reads_first_only_witness :
  (cause sample_outer = ptrError (Some 1) ∧
   errs sample_world !! 1 = Some sample_inner ∧ retryable sample_inner = true) ∧
  IsRetryable (wrapError 0 "outer" (ptrError (Some 2))) sample_world
    = Ok (false, sample_world) ∧
  IsRetryable (wrapError 0 "outer" (ptrError (Some 1))) sample_world
    = Ok (true, sample_world).
Proof.
  split; [by repeat split | ]. split.
  - destruct (IsRetryable_reads_first_only sample_world
                (wrapError 0 "outer" (ptrError (Some 2))) 2 sample_outer)
      as (_ & _ & Hdeeper); [reflexivity | reflexivity | ].
    apply (Hdeeper eq_refl 1 sample_inner); [ | reflexivity | reflexivity].
    apply reach_here.
  - destruct (IsRetryable_reads_first_only sample_world
                (wrapError 0 "outer" (ptrError (Some 1))) 1 sample_inner)
      as (Hflag & _); [reflexivity | reflexivity | ].
    exact Hflag.
Defined.

(** ** The scenarios of the test suite *)

(** [TestWithMetaContext_OverwritesSameKey] and the parent re-read: the
    child of [{a:1, b:2}] by ["b", 3] reads [{a:1, b:3}], the parent still
    reads [{a:1, b:2}]. *)
Example attach_overwrites_in_child_only :
  (parent ← WithMetaContext (Some Background)
              [any_string "a"; any_int 1; any_string "b"; any_int 2];
   child ← WithMetaContext parent [any_string "b"; any_int 3];
   w ← get_world;
   mret (snapshot w parent, snapshot w child)) empty_world
  = Ok ((<["a" := any_int 1]> (<["b" := any_int 2]> ∅),
         <["a" := any_int 1]> (<["b" := any_int 3]> ∅)),
        mkWorld ∅ (<[2 := <["a" := any_int 1]> (<["b" := any_int 3]> ∅)]>
                     (<[1 := <["a" := any_int 1]> (<["b" := any_int 2]> ∅)]> ∅)) 0).
Proof. vm_compute. reflexivity. Qed.

(** [TestWithMetaContext_SkipsNonStringKey] and [..._DropsTrailingKey]. *)
Example attach_drops_bad_pairs :
  spec_attach ∅ [any_int 123; any_string "value"; any_string "valid_key";
                 any_string "valid_value"; any_string "key2"]
  = <["valid_key" := any_string "valid_value"]> ∅.
Proof. vm_compute. reflexivity. Qed.

(** X27: a nil parent context.  [getCtxMeta] tolerates it, the map is made
    and filled, and then [context.WithValue] panics: [WithMetaContext] of
    the nil context panics for every key/value list. *)
Example attach_nil_parent_panics keyvals w :
  WithMetaContext None keyvals w = Panic.
Proof.
  unfold WithMetaContext.
  assert (Hmake : map_make w = Ok (Some (fresh_loc (maps w)),
                                   set_maps <[fresh_loc (maps w) := ∅]> w))
    by reflexivity.
  rewrite (bind_Ok _ _ _ _ _ Hmake).
  erewrite bind_Ok; [ | reflexivity].
  erewrite bind_Ok; [ | reflexivity].
  erewrite bind_Ok;
    [ | apply keyvals_loop_run; [simpl; apply lookup_insert_eq | lia]].
  reflexivity.
Qed.

(** [TestEnsure_WrappedErrxError]: the instance inside a foreign wrapper
    comes back, with its own code. *)
Example ensure_keeps_classification :
  (original ← New CodeNotFound "not found" [100%N];
   result ← Ensure (wrapError 0 "outer" (ptrError original)) CodeInternal "fallback" [100%N];
   c ← Error_Code result;
   mret (original, result, c)) empty_world
  = (original ← New CodeNotFound "not found" [100%N];
     mret (original, original, CodeNotFound)) empty_world.
Proof. vm_compute. reflexivity. Qed.

(** [TestAsType]: a foreign shape is found behind two [Wrap] nodes, the
    walk stepping through their cause links. *)
Example AsType_through_cause_links :
  (inner ← Wrap (leafError 7 "custom error") CodeInternal "inner" [100%N];
   outer ← Wrap (ptrError inner) CodeNotFound "outer" [100%N];
   r ← AsType (TyForeign 7) (ptrError outer);
   mret r) empty_world
  = (inner ← Wrap (leafError 7 "custom error") CodeInternal "inner" [100%N];
     outer ← Wrap (ptrError inner) CodeNotFound "outer" [100%N];
     mret (leafError 7 "custom error", true)) empty_world.
Proof. vm_compute. reflexivity. Qed.

(** [Wrap] of the value [Wrap] returned for a nil error: the nil [*Error]
    is a non-nil [error], so a node is built around it. *)
Example Wrap_of_typed_nil_is_built :
  (inner ← Wrap nil_error CodeInternal "inner" [100%N];
   outer ← Wrap (ptrError inner) CodeNotFound "outer" [100%N];
   c ← CodeOf (ptrError outer);
   mret (inner, outer, c)) empty_world
  = Ok ((None, Some 1, CodeNotFound),
        mkWorld (<[1 := mkError CodeNotFound "outer" "" (ptrError None) "" []
                           (Some 1) (Some 2) [100%N] false]> ∅)
                (<[2 := ∅]> (<[1 := ∅]> ∅)) 1).
Proof. vm_compute. reflexivity. Qed.

(** [Is] with an absent-but-typed target, on a value fresh from [New]. *)
Example Is_typed_nil_target_after_New :
  (e ← New CodeNotFound "a" [100%N]; Error_Is e (ptrError None)) empty_world = Panic.
Proof. vm_compute. reflexivity. Qed.

(** * Further properties *)

(** ** Constructors and readers *)

(** Everything [newError] does, as seen from a public constructor whose
    caller has stack [stack]. *)
Lemma newError_effect w c msg cause_ pc stack :
  ∃ l d m w',
    newError c msg cause_ (pc :: stack) w = Ok (Some l, w') ∧
    l = fresh_loc (errs w) ∧
    errs w' = <[l := mkError c msg "" cause_ "" [] (Some d) (Some m)
                             (take maxDepth stack) false]> (errs w) ∧
    maps w' = <[m := ∅]> (<[d := ∅]> (maps w)) ∧
    maps w !! d = None ∧ maps w !! m = None ∧ d ≠ m ∧
    callers_calls w' = S (callers_calls w).
Proof.
  rewrite newError_run. simpl.
  set (d := fresh_loc (maps w)). set (m := fresh_loc (<[d := ∅]> (maps w))).
  assert (Hd : maps w !! d = None) by apply fresh_loc_fresh.
  assert (Hdm : d ≠ m).
  { apply fresh_loc_ne. rewrite lookup_insert_eq. eauto. }
  assert (Hm : maps w !! m = None).
  { rewrite <- (lookup_insert_ne (maps w) d m ∅) by done. apply fresh_loc_fresh. }
  by eexists _, d, m, _.
Qed.

Lemma is_nil_false err : err ≠ nil_error → is_nil err = false.
Proof. by destruct err. Qed.

Lemma is_nil_true err : is_nil err = true → err = nil_error.
Proof. by destruct err. Qed.

Lemma newError_then_readers w c msg cause_ pc stack :
  ∃ l w', newError c msg cause_ (pc :: stack) w = Ok (Some l, w') ∧
     Error_Code (Some l) w' = Ok (c, w') ∧
     Error_Error (Some l) w' = Ok (msg, w') ∧
     Error_Unwrap (Some l) w' = Ok (cause_, w') ∧
     Error_Source (Some l) w' = Ok ("", w') ∧
     Error_Tags (Some l) w' = Ok ([], w') ∧
     Error_IsRetryable (Some l) w' = Ok (false, w') ∧
     Error_StackTrace (Some l) w' = Ok (take maxDepth stack, w') ∧
     (∀ k, details_at w' (Some l) k = None) ∧
     (∀ k, metadata_at w' (Some l) k = None).
Proof.
  destruct (newError_effect w c msg cause_ pc stack)
    as (l & d & m & w' & Hrun & _ & Herrs & Hmaps & _ & _ & Hdm & _).
  exists l, w'. split; [exact Hrun | ].
  assert (Hl : errs w' !! l = Some (mkError c msg "" cause_ "" [] (Some d) (Some m)
                                      (take maxDepth stack) false)).
  { by rewrite Herrs, lookup_insert_eq. }
  unfold Error_Code, Error_Error, Error_Unwrap, Error_Source, Error_Tags,
    Error_IsRetryable, Error_StackTrace, details_at, metadata_at,
    Error_Details, Error_Metadata.
  rewrite !(bind_Ok _ _ _ _ _ (load_Some w' l _ Hl)). simpl.
  repeat (split; [reflexivity | ]).
  rewrite Hmaps. split; intros k.
  - by rewrite lookup_insert_ne, lookup_insert_eq.
  - by rewrite lookup_insert_eq.
Qed.

(** X1: the readers give back what the constructor was given.  On the
    value [Wrap] builds around a non-nil [err] (and likewise on the value
    of [New], whose cause is nil): [Code] is the code, [Error] the message,
    [Unwrap] the wrapped error itself, [Source] and [Tags] are empty,
    [IsRetryable] is false, [StackTrace] is the caller's stack cut at 32
    frames, and [Details] and [Metadata] read as empty maps. *)
Theorem constructor_then_readers w c msg stack :
  (∀ err, err ≠ nil_error →
     ∃ l w', Wrap err c msg stack w = Ok (Some l, w') ∧
       Error_Code (Some l) w' = Ok (c, w') ∧
       Error_Error (Some l) w' = Ok (msg, w') ∧
       Error_Unwrap (Some l) w' = Ok (err, w') ∧
       Error_Source (Some l) w' = Ok ("", w') ∧
       Error_Tags (Some l) w' = Ok ([], w') ∧
       Error_IsRetryable (Some l) w' = Ok (false, w') ∧
       Error_StackTrace (Some l) w' = Ok (take maxDepth stack, w') ∧
       (∀ k, details_at w' (Some l) k = None) ∧
       (∀ k, metadata_at w' (Some l) k = None)) ∧
  (∃ l w', New c msg stack w = Ok (Some l, w') ∧
       Error_Code (Some l) w' = Ok (c, w') ∧
       Error_Error (Some l) w' = Ok (msg, w') ∧
       Error_Unwrap (Some l) w' = Ok (nil_error, w') ∧
       Error_Source (Some l) w' = Ok ("", w') ∧
       Error_Tags (Some l) w' = Ok ([], w') ∧
       Error_IsRetryable (Some l) w' = Ok (false, w') ∧
       Error_StackTrace (Some l) w' = Ok (take maxDepth stack, w') ∧
       (∀ k, details_at w' (Some l) k = None) ∧
       (∀ k, metadata_at w' (Some l) k = None)).
Proof.
  split.
  - intros err Hnn. unfold Wrap. rewrite (is_nil_false err Hnn).
    apply newError_then_readers.
  - apply newError_then_readers.
Qed.

(** X2: a formatted constructor is the plain one applied to the formatted
    message: same outcome, same store, same stack trace (the extra frame of
    the formatted variant is skipped like that of the plain one). *)
Theorem formatted_constructors_agree Sprintf c format args stack w :
  Newf Sprintf c format args stack w = New c (Sprintf format args) stack w ∧
  (∀ err, Wrapf Sprintf err c format args stack w
            = Wrap err c (Sprintf format args) stack w) ∧
  (∀ err, Ensuref Sprintf err c format args stack w
            = Ensure err c (Sprintf format args) stack w).
Proof.
  split; [ | split].
  - unfold Newf, New. by rewrite !newError_run.
  - intros err. unfold Wrapf, Wrap. destruct (is_nil err); [done | ].
    by rewrite !newError_run.
  - intros err. unfold Ensuref, Ensure. destruct (is_nil err); [done | ].
    rewrite !(bind_Ok _ _ _ _ _ (As_first_Error w err)).
    destruct (first_Error err); [done | ]. by rewrite !newError_run.
Qed.

(** X3: [Wrap] answers nil for the nil interface only.  An absent-but-typed
    [*Error] handed over as an [error] is not nil: [Wrap] builds a node
    around it. *)
Theorem Wrap_nil_only_for_nil_interface w err c msg stack :
  (∀ w', Wrap err c msg stack w = Ok (None, w') ↔ err = nil_error ∧ w' = w) ∧
  (∃ l w', Wrap (ptrError None) c msg stack w = Ok (Some l, w') ∧
           Error_Unwrap (Some l) w' = Ok (ptrError None, w')).
Proof.
  split.
  - intros w'. unfold Wrap. destruct (is_nil err) eqn:Hn.
    + apply is_nil_true in Hn as ->. split.
      * by intros [= <-].
      * by intros [_ ->].
    + rewrite newError_run. split; [discriminate | ].
      intros [-> _]. discriminate.
  - destruct (newError_then_readers w c msg (ptrError None) pc_Wrap stack)
      as (l & w' & Hrun & _ & _ & Hunwrap & _).
    by exists l, w'.
Qed.

(** ** [Ensure] *)

(** X4: [Ensure] is idempotent.  Whatever [Ensure] returned for [err],
    ensuring that value again (handed over as an [error], with any other
    fallback) returns the same pointer and changes nothing: no second node
    is ever stacked on top. *)
Theorem Ensure_idempotent w err c1 m1 s1 c2 m2 s2 :
  ∃ e w1, Ensure err c1 m1 s1 w = Ok (e, w1) ∧
          Ensure (ptrError e) c2 m2 s2 w1 = Ok (e, w1).
Proof.
  assert (Hagain : ∀ e w1, Ensure (ptrError e) c2 m2 s2 w1 = Ok (e, w1)).
  { intros e w1. unfold Ensure. simpl.
    by rewrite (bind_Ok _ _ _ _ _ (As_first_Error w1 (ptrError e))). }
  unfold Ensure at 1. destruct (is_nil err).
  - by exists None, w.
  - rewrite (bind_Ok _ _ _ _ _ (As_first_Error w err)).
    destruct (first_Error err) as [p | ].
    + by exists p, w.
    + destruct (newError_effect w c1 m1 err pc_Ensure s1) as (l & d & m & w' & Hrun & _).
      exists (Some l), w'. by rewrite Hrun.
Qed.

(** X5: [Ensure] returns the nil pointer in two cases only: for the nil
    error, and for an error whose first [*Error] node is an
    absent-but-typed one, which [As] reports as found.  In both the store
    is left as it was. *)
Theorem Ensure_nil_cases w err c msg stack w' :
  Ensure err c msg stack w = Ok (None, w') ↔
  (err = nil_error ∨ first_Error err = Some None) ∧ w' = w.
Proof.
  unfold Ensure. destruct (is_nil err) eqn:Hn.
  - apply is_nil_true in Hn as ->. split.
    + intros [= <-]. by split; [left | ].
    + by intros [_ ->].
  - rewrite (bind_Ok _ _ _ _ _ (As_first_Error w err)).
    destruct (first_Error err) as [[l | ] | ] eqn:Hfirst.
    + split; [discriminate | ]. intros [[-> | [=]] _]. discriminate.
    + split.
      * intros [= <-]. by split; [right | ].
      * by intros [_ ->].
    + rewrite newError_run. split; [discriminate | ].
      intros [[-> | [=]] _]. discriminate.
Qed.

(** ** The predicates built on [As] *)

(** X6: with an ErrorValue [E] first in the chain, the predicates all read
    that one: [Is] holds, [CodeOf] is its code, [CodeIs] and [CodeIn]
    compare that code, [IsRetryable] is its flag.  So [CodeIs(err, c)] is
    [CodeOf(err) == c] and [CodeIn(err, cs...)] is membership of
    [CodeOf(err)], which no code list that is empty satisfies. *)
Theorem predicates_read_first_ErrorValue w err l E :
  first_Error err = Some (Some l) → errs w !! l = Some E →
  Is err w = Ok (true, w) ∧
  CodeOf err w = Ok (code E, w) ∧
  (∀ c, CodeIs err c w = Ok (bool_decide (code E = c), w)) ∧
  (∀ cs, CodeIn err cs w = Ok (bool_decide (code E ∈ cs), w)) ∧
  CodeIn err [] w = Ok (false, w) ∧
  IsRetryable err w = Ok (retryable E, w).
Proof.
  intros Hfirst Hl.
  assert (HAs : As err w = Ok ((Some l, true), w)) by (by rewrite As_first_Error, Hfirst).
  assert (HIs : Is err w = Ok (true, w)).
  { unfold Is, IsType. unfold As in HAs. unfold mbind, M_bind in *.
    destruct (AsType TyError err w) as [[[pe ok] w0] | | ]; [ | done | done].
    by injection HAs as _ -> ->. }
  assert (HIn : ∀ cs, CodeIn err cs w = Ok (bool_decide (code E ∈ cs), w)).
  { intros cs. unfold CodeIn. rewrite (bind_Ok _ _ _ _ _ HAs). simpl.
    by rewrite (bind_Ok _ _ _ _ _ (load_Some w l E Hl)). }
  split; [exact HIs | ]. split.
  { unfold CodeOf. rewrite (bind_Ok _ _ _ _ _ HAs). simpl.
    by rewrite (bind_Ok _ _ _ _ _ (load_Some w l E Hl)). }
  split.
  { intros c. unfold CodeIs. rewrite (bind_Ok _ _ _ _ _ HAs). simpl.
    by rewrite (bind_Ok _ _ _ _ _ (load_Some w l E Hl)). }
  split; [exact HIn | ]. split.
  { rewrite HIn, bool_decide_eq_false_2; [done | apply not_elem_of_nil]. }
  unfold IsRetryable, Error_IsRetryable. rewrite (bind_Ok _ _ _ _ _ HAs). simpl.
  by rewrite (bind_Ok _ _ _ _ _ (load_Some w l E Hl)).
Qed.

(** X7: with no ErrorValue in the chain (a plain error, or nil) [Is] and
    [IsRetryable] are false, [CodeOf] answers [CodeUnknown], and yet
    [CodeIs] and [CodeIn] are false for every code, [CodeUnknown]
    included: [CodeIs(err, CodeOf(err))] fails on a plain error. *)
Theorem predicates_without_ErrorValue w err :
  first_Error err = None →
  Is err w = Ok (false, w) ∧
  CodeOf err w = Ok (CodeUnknown, w) ∧
  (∀ c, CodeIs err c w = Ok (false, w)) ∧
  (∀ cs, CodeIn err cs w = Ok (false, w)) ∧
  IsRetryable err w = Ok (false, w).
Proof.
  intros Hfirst.
  assert (HAs : As err w = Ok ((None, false), w)) by (by rewrite As_first_Error, Hfirst).
  assert (HIs : Is err w = Ok (false, w)).
  { unfold Is, IsType. unfold As in HAs. unfold mbind, M_bind in *.
    destruct (AsType TyError err w) as [[[pe ok] w0] | | ]; [ | done | done].
    by injection HAs as _ -> ->. }
  split; [exact HIs | ].
  unfold CodeOf, CodeIs, CodeIn, IsRetryable.
  repeat split; intros; by rewrite (bind_Ok _ _ _ _ _ HAs).
Qed.

(** X8: re-wrapping with the code of what is wrapped keeps the
    classification.  [Wrap(err, CodeOf(err), msg)] on an error whose first
    ErrorValue is [E] builds a node whose code, and so whose [CodeOf], is
    the code of [E]. *)
Theorem rewrap_keeps_code w err l E msg stack :
  first_Error err = Some (Some l) → errs w !! l = Some E →
  ∃ o w', (c ← CodeOf err; Wrap err c msg stack) w = Ok (Some o, w') ∧
          o ≠ l ∧
          Error_Unwrap (Some o) w' = Ok (err, w') ∧
          CodeOf (ptrError (Some o)) w' = Ok (code E, w').
Proof.
  intros Hfirst Hl.
  assert (HCodeOf : CodeOf err w = Ok (code E, w)).
  { unfold CodeOf. rewrite (bind_Ok _ _ _ _ _ (As_first_Error w err)), Hfirst. simpl.
    by rewrite (bind_Ok _ _ _ _ _ (load_Some w l E Hl)). }
  rewrite (bind_Ok _ _ _ _ _ HCodeOf). unfold Wrap.
  destruct (is_nil err) eqn:Hn; [by rewrite (first_Error_nil err Hn) in Hfirst | ].
  destruct (newError_effect w (code E) msg err pc_Wrap stack)
    as (o & d & m & w' & Hrun & -> & Herrs & _).
  exists (fresh_loc (errs w)), w'. split; [exact Hrun | ].
  assert (Ho : errs w' !! fresh_loc (errs w) = Some
    (mkError (code E) msg "" err "" [] (Some d) (Some m) (take maxDepth stack) false)).
  { by rewrite Herrs, lookup_insert_eq. }
  split; [apply not_eq_sym, fresh_loc_ne; eauto | ]. split.
  - unfold Error_Unwrap. by rewrite (bind_Ok _ _ _ _ _ (load_Some _ _ _ Ho)).
  - by rewrite (CodeOf_ptr _ _ _ Ho).
Qed.

(** ** [AsType] for any target type *)

Lemma first_found_Some (walk : error → Outcome (option error)) errs pe :
  first_found walk errs = Ok (Some pe) → ∃ e, e ∈ errs ∧ walk e = Ok (Some pe).
Proof.
  induction errs as [ | e errs IH]; simpl; [discriminate | ].
  destruct (is_nil e).
  - intros H. destruct (IH H) as (e' & Hin & He'). exists e'. split; [by right | done].
  - destruct (walk e) as [[found | ] | | ] eqn:He; try discriminate.
    + intros [= ->]. exists e. split; [left | done].
    + intros H. destruct (IH H) as (e' & Hin & He'). exists e'. split; [by right | done].
Qed.

Lemma first_found_None (walk : error → Outcome (option error)) errs e :
  first_found walk errs = Ok None → e ∈ errs → e = nil_error ∨ walk e = Ok None.
Proof.
  induction errs as [ | e' errs IH]; simpl; intros Hff Hin.
  - by apply elem_of_nil in Hin.
  - destruct (is_nil e') eqn:Hn.
    + apply elem_of_cons in Hin as [-> | Hin]; [left; by apply is_nil_true | by apply IH].
    + destruct (walk e') as [[found | ] | | ] eqn:He; try discriminate.
      apply elem_of_cons in Hin as [-> | Hin]; [by right | by apply IH].
Qed.

Lemma errors_as_E_unfold fuel E w err :
  errors_as_E fuel E w err =
    if assignable E err then Ok (Some err)
    else
      match err with
      | wrapError _ _ inner => if is_nil inner then Ok None else errors_as_E fuel E w inner
      | joinError _ errs => first_found (errors_as_E fuel E w) errs
      | ptrError p =>
          match Error_Unwrap p w with
          | Ok (c, _) =>
              if is_nil c then Ok None
              else match fuel with
                   | O => Diverge
                   | S fuel' => errors_as_E fuel' E w c
                   end
          | Panic => Panic
          | Diverge => Diverge
          end
      | _ => Ok None
      end.
Proof. destruct fuel, err; reflexivity. Qed.

Lemma assignable_concrete T err :
  assignable (concrete T) err = bool_decide (type_of err = Some T).
Proof.
  unfold assignable. destruct (type_of err) as [T' | ]; [ | done].
  apply bool_decide_ext. split; [by intros -> | by intros [= ->]].
Qed.

Lemma first_found_ext (walk walk' : error → Outcome (option error)) errs :
  Forall (λ e, walk e = walk' e) errs → first_found walk errs = first_found walk' errs.
Proof.
  induction 1 as [ | e errs He _ IH]; simpl; [done | ].
  rewrite He, IH. done.
Qed.

(** At a concrete type argument the general walk is the walk of the
    functions above. *)
Lemma errors_as_E_concrete fuel T w err :
  errors_as_E fuel (concrete T) w err = errors_as fuel T w err.
Proof.
  revert err. induction fuel as [ | fuel IHfuel]; intros err;
    induction err as [ | p | ty msg | ty msg err IH | ty errs IH] using error_nested_ind;
    rewrite errors_as_E_unfold, errors_as_unfold, assignable_concrete;
    (destruct (decide (type_of _ = Some T)) as [Hty | Hty];
     [by rewrite (bool_decide_eq_true_2 _ Hty) | rewrite (bool_decide_eq_false_2 _ Hty)]);
    try done.
  - by rewrite IH.
  - by rewrite (first_found_ext _ _ _ IH).
  - destruct (Error_Unwrap p w) as [[c ?] | | ]; try done.
    destruct (is_nil c); [done | apply IHfuel].
  - by rewrite IH.
  - by rewrite (first_found_ext _ _ _ IH).
Qed.

Lemma AsType_E_concrete T err w : AsType_E (concrete T) err w = AsType T err w.
Proof.
  unfold AsType_E, AsType. destruct (is_nil err); [done | ].
  unfold mbind, M_bind, errors_As_E, errors_As. by rewrite errors_as_E_concrete.
Qed.

Ltac case_assignable Hty :=
  match goal with
  | |- (if assignable ?E ?e then _ else _) = _ → _ => destruct (assignable E e) eqn:Hty
  end.

Lemma errors_as_E_sound E w fuel err pe :
  errors_as_E fuel E w err = Ok (Some pe) → assignable E pe = true ∧ reach w err pe.
Proof.
  revert err. induction fuel as [ | fuel IHfuel]; intros err;
    induction err as [ | p | ty msg | ty msg err IH | ty errs IH] using error_nested_ind;
    rewrite errors_as_E_unfold; case_assignable Hty; simpl;
    try (intros [= <-]; split; [exact Hty | constructor]); try discriminate.
  all: try (destruct (is_nil err); [discriminate | ];
            intros H; destruct (IH H) as [? ?]; split; [done | by constructor]).
  all: try (intros H; apply first_found_Some in H as (e & Hin & He);
            destruct (proj1 (Forall_forall _ _) IH e Hin He) as [? ?];
            split; [done | by apply (reach_join w ty errs e)]).
  - destruct p as [l | ]; [ | discriminate]. unfold Error_Unwrap, mbind, M_bind, load.
    destruct (errs w !! l); [ | discriminate]. simpl.
    by destruct (is_nil (cause _)).
  - destruct p as [l | ]; [ | discriminate]. unfold Error_Unwrap, mbind, M_bind, load.
    destruct (errs w !! l) as [E0 | ] eqn:Hl; [ | discriminate]. simpl.
    destruct (is_nil (cause E0)); [discriminate | ].
    intros H. destruct (IHfuel _ H) as [? ?]. split; [done | by apply (reach_cause w l E0)].
Qed.

Lemma errors_as_E_complete E w fuel err node :
  errors_as_E fuel E w err = Ok None → reach w err node → assignable E node = false.
Proof.
  intros Has Hreach. revert fuel Has.
  induction Hreach as [err | ty msg inner node Hsub IH | ty errs e node Hin Hsub IH
                      | l E0 node Hl Hsub IH]; intros fuel; rewrite errors_as_E_unfold;
    case_assignable Hty; try discriminate; simpl.
  - by intros _.
  - destruct (is_nil inner) eqn:Hn.
    + intros _. apply is_nil_true in Hn as ->.
      clear IH. inversion Hsub; by subst.
    + apply IH.
  - intros Hff. destruct (first_found_None _ _ e Hff Hin) as [-> | He].
    + clear IH. inversion Hsub; by subst.
    + by apply (IH fuel).
  - unfold Error_Unwrap, mbind, M_bind, load. rewrite Hl. simpl.
    destruct (is_nil (cause E0)) eqn:Hn.
    + intros _. apply is_nil_true in Hn. rewrite Hn in Hsub.
      clear IH. inversion Hsub; by subst.
    + destruct fuel as [ | fuel]; [discriminate | apply IH].
Qed.

Lemma first_found_Ok (walk : error → Outcome (option error)) errs :
  Forall (λ e, ∃ r, walk e = Ok r) errs → ∃ r, first_found walk errs = Ok r.
Proof.
  induction 1 as [ | e errs [r He] _ IH]; simpl; [by eexists | ].
  destruct (is_nil e); [done | ]. rewrite He. destruct r; [by eexists | done].
Qed.

(** In a store whose causes are older than what wraps them and hold
    allocated pointers only, the walk over a valid error gives an answer:
    with [fuel] for every allocated [Error] below the bound [n] of the
    pointers still ahead it neither runs out nor meets a dangling
    pointer. *)
Lemma errors_as_E_Ok E w :
  causes_older w → causes_valid w →
  ∀ fuel n err,
    size (allocated_below w n) ≤ fuel →
    (∀ l, ptrError (Some l) ∈ chain err → l < n) →
    error_valid w err →
    ∃ r, errors_as_E fuel E w err = Ok r.
Proof.
  intros Hord Hcv fuel. induction fuel as [ | fuel IHfuel]; intros n err Hsize;
    induction err as [ | p | ty msg | ty msg err IH | ty errs IH] using error_nested_ind;
    intros Hptrs Hvalid; rewrite errors_as_E_unfold;
    destruct (assignable E _); simpl; try (by eexists).
  - destruct p as [l | ]; [ | by eexists]. unfold Error_Unwrap, mbind, M_bind, load.
    destruct (Hvalid l) as [E0 Hl]; [left | ]. rewrite Hl. simpl.
    destruct (is_nil (cause E0)); [by eexists | ].
    assert (Hlt : l < n) by (apply Hptrs; left).
    pose proof (allocated_below_shrinks w l n (mk_is_Some _ _ Hl) Hlt) as Hshrink.
    exfalso. exact (Nat.nlt_0_r _ (Nat.lt_le_trans _ _ _ Hshrink Hsize)).
  - destruct (is_nil err); [by eexists | ]. apply IH.
    + intros l Hl. apply Hptrs. by right.
    + intros l Hl. apply Hvalid. by right.
  - apply first_found_Ok. apply Forall_forall. intros e He.
    apply (proj1 (Forall_forall _ _) IH e He).
    + intros l Hl. apply Hptrs. by apply (chain_join_part ty errs e).
    + intros l Hl. apply Hvalid. by apply (chain_join_part ty errs e).
  - destruct p as [l | ]; [ | by eexists]. unfold Error_Unwrap, mbind, M_bind, load.
    destruct (Hvalid l) as [E0 Hl]; [left | ]. rewrite Hl. simpl.
    destruct (is_nil (cause E0)); [by eexists | ].
    assert (Hlt : l < n) by (apply Hptrs; left).
    pose proof (allocated_below_shrinks w l n (mk_is_Some _ _ Hl) Hlt) as Hshrink.
    apply (IHfuel l).
    + apply Nat.lt_succ_r. exact (Nat.lt_le_trans _ _ _ Hshrink Hsize).
    + intros l' Hl'. exact (Hord l E0 l' Hl Hl').
    + exact (Hcv l E0 Hl).
  - destruct (is_nil err); [by eexists | ]. apply IH.
    + intros l Hl. apply Hptrs. by right.
    + intros l Hl. apply Hvalid. by right.
  - apply first_found_Ok. apply Forall_forall. intros e He.
    apply (proj1 (Forall_forall _ _) IH e He).
    + intros l Hl. apply Hptrs. by apply (chain_join_part ty errs e).
    + intros l Hl. apply Hvalid. by apply (chain_join_part ty errs e).
Qed.

(** X9: what [AsType] returns at any type argument, concrete or interface.
    At a concrete type it is the function [As] and [Is] are built on.  In
    a store whose causes are older than their holders and allocated it
    returns for every valid error, it never changes the store, and
    [IsType] is its found flag.  A node
    that is itself assignable to the type argument is returned as it is,
    so [AsType[error]] of a non-nil error is that error.  A found value is
    assignable to the type argument (for a concrete one: has that dynamic
    type) and is a node reached from [err] by unwrapping (foreign
    wrappers, parts of joined errors, cause links of [*Error] nodes); a
    not-found answer comes with the zero value and means that no node
    reached from [err] is assignable to it. *)
Theorem AsType_finds_node_of_type E err w :
  (∀ T, AsType_E (concrete T) err w = AsType T err w) ∧
  (causes_older w → causes_valid w → error_valid w err →
   ∃ pe ok, AsType_E E err w = Ok ((pe, ok), w)) ∧
  (assignable E err = true → AsType_E E err w = Ok ((err, true), w)) ∧
  (err ≠ nil_error → AsType_E error_iface err w = Ok ((err, true), w)) ∧
  ∀ pe ok w', AsType_E E err w = Ok ((pe, ok), w') →
    w' = w ∧ IsType_E E err w = Ok (ok, w) ∧
    (ok = true → assignable E pe = true ∧ reach w err pe) ∧
    (ok = false → pe = nil_error ∧ ∀ node, reach w err node → assignable E node = false).
Proof.
  assert (Hhere : ∀ E', assignable E' err = true → AsType_E E' err w = Ok ((err, true), w)).
  { intros E' Hty. unfold AsType_E.
    destruct (is_nil err) eqn:Hn; [apply is_nil_true in Hn as ->; discriminate | ].
    unfold mbind, M_bind, errors_As_E. by rewrite errors_as_E_unfold, Hty. }
  split; [intros T; apply AsType_E_concrete | ]. split; [ | split; [ | split]].
  - intros Hord Hcv Hvalid. unfold AsType_E.
    destruct (is_nil err); [by eexists _, _ | ].
    unfold mbind, M_bind, errors_As_E.
    destruct (errors_as_E_Ok E w Hord Hcv (size (errs w)) (fresh_loc (errs w)) err)
      as [r Hr].
    + rewrite <- size_dom. apply subseteq_size. intros x Hx.
      by apply elem_of_filter in Hx as [_ Hx].
    + intros l Hl. by apply allocated_lt_fresh, Hvalid.
    + exact Hvalid.
    + rewrite Hr. destruct r; by eexists _, _.
  - apply Hhere.
  - intros Hnn. apply Hhere. by destruct err.
  - intros pe ok w' Hrun.
    assert (Hw : w' = w ∧
      (ok = true → assignable E pe = true ∧ reach w err pe) ∧
      (ok = false → pe = nil_error ∧
                    ∀ node, reach w err node → assignable E node = false)).
    { revert Hrun. unfold AsType_E. destruct (is_nil err) eqn:Hn.
      + apply is_nil_true in Hn as ->. intros [= <- <- <-].
        split; [done | ]. split; [discriminate | ]. intros _. split; [done | ].
        intros node Hreach. inversion Hreach; by subst.
      + unfold mbind, M_bind, errors_As_E.
        destruct (errors_as_E (size (errs w)) E w err) as [[found | ] | | ] eqn:Has;
          try discriminate.
        * intros [= <- <- <-]. split; [done | ]. split; [ | discriminate].
          intros _. by apply (errors_as_E_sound E w _ _ _ Has).
        * intros [= <- <- <-]. split; [done | ]. split; [discriminate | ].
          intros _. split; [done | ]. intros node.
          by apply (errors_as_E_complete E w _ _ _ Has). }
    destruct Hw as (-> & Hyes & Hno). split; [done | ]. split; [ | by split].
    unfold IsType_E. by rewrite (bind_Ok _ _ _ _ _ Hrun).
Qed.

(** ** Chains of builder calls *)

Lemma same_core_refl E : same_core E E.
Proof. by repeat split. Qed.

Lemma builder_frame_refl l w E : errs w !! l = Some E → builder_frame l w w.
Proof.
  intros Hl. split; [ | done]. exists E, E. split; [done | ]. split; [done | ].
  split; [apply same_core_refl | done].
Qed.

Lemma builder_frame_trans l w1 w2 w3 :
  builder_frame l w1 w2 → builder_frame l w2 w3 → builder_frame l w1 w3.
Proof.
  intros [(E1 & E2 & H1 & H2 & Hcore12 & Hr12 & Hm12) (Ho12 & Hd12 & Hc12)]
         [(E2' & E3 & H2' & H3 & Hcore23 & Hr23 & Hm23) (Ho23 & Hd23 & Hc23)].
  assert (E2' = E2) as -> by congruence.
  destruct Hcore12 as (? & ? & ? & ? & Hdet & Hmet).
  destruct Hcore23 as (? & ? & ? & ? & Hdet' & Hmet').
  split; [ | split; [ | split]].
  - exists E1, E3. split; [done | ]. split; [done | ]. split.
    + repeat split; congruence.
    + split; [auto | ]. intros x Hxd Hxm.
      rewrite Hm23, Hm12; [done | done | done | congruence | congruence].
  - intros l' Hne. by rewrite Ho23, Ho12.
  - congruence.
  - congruence.
Qed.

Lemma Error_ready_frame l w w' :
  Error_ready w l → builder_frame l w w' → Error_ready w' l.
Proof.
  intros (E & d & m & Hl & Hd & Hda & Hm & Hma)
         [(E1 & E' & Hl1 & Hl' & Hcore & _) (_ & Hdom & _)].
  assert (E1 = E) as -> by congruence.
  destruct Hcore as (_ & _ & _ & _ & Hdet & Hmet).
  exists E', d, m. split; [done | ].
  split; [congruence | ]. split; [by rewrite <- elem_of_dom, Hdom, elem_of_dom | ].
  split; [congruence | by rewrite <- elem_of_dom, Hdom, elem_of_dom].
Qed.

Lemma ctx_valid_frame l w w' ctx :
  ctx_valid w ctx → builder_frame l w w' → ctx_valid w' ctx.
Proof.
  intros Hv (_ & _ & Hdom & _) s Hs.
  rewrite <- elem_of_dom, Hdom, elem_of_dom. by apply Hv.
Qed.

(** A write into one of the two maps of the [Error] at [l]. *)
Lemma map_write_frame l w E x content :
  errs w !! l = Some E → (Some x = details E ∨ Some x = metadata E) →
  is_Some (maps w !! x) →
  builder_frame l w (set_maps <[x := content]> w).
Proof.
  intros Hl Hx Hxa. split; [ | split; [done | split; [ | done]]].
  - exists E, E. split; [done | ]. split; [done | ]. split; [apply same_core_refl | ].
    split; [done | ]. intros y Hyd Hym. simpl. apply lookup_insert_ne.
    intros ->. by destruct Hx.
  - simpl. by apply dom_insert_lookup_L.
Qed.

(** A write into a field that is not part of the core. *)
Lemma field_write_frame l w E (f : Error → Error) :
  errs w !! l = Some E → same_core E (f E) →
  (retryable E = true → retryable (f E) = true) →
  builder_frame l w (set_errs <[l := f E]> w).
Proof.
  intros Hl Hcore Hr. split; [ | split; [ | done]].
  - exists E, (f E). split; [done | ]. split; [simpl; apply lookup_insert_eq | ].
    split; [done | ]. split; [done | done].
  - intros l' Hne. simpl. by apply lookup_insert_ne.
Qed.

(** One builder call on a ready [Error]: it returns, with the same
    pointer, within the frame. *)
Lemma call_run l w b :
  Error_ready w l →
  (∀ ctx, b = call_WithMetaFromContext ctx → ctx_valid w ctx) →
  ∃ w', call (Some l) b w = Ok (Some l, w') ∧ builder_frame l w w'.
Proof.
  intros (E & d & m & Hl & Hd & [dc Hdc] & Hm & [mc Hmc]) Hctx.
  destruct b as [k v | k v | ctx | msg | src | ts | ]; simpl.
  - eexists. split.
    + unfold Error_WithDetail.
      rewrite (bind_Ok _ _ _ _ _ (load_Some w l E Hl)), Hd.
      by rewrite (bind_Ok _ _ _ _ _ (map_assign_Some w d dc k v Hdc)).
    + apply (map_write_frame l w E d); eauto.
  - eexists. split.
    + by apply (Error_WithMeta_run w l E m mc).
    + apply (map_write_frame l w E m); eauto.
  - assert (Hentries : ∃ entries, map_entries (getCtxMeta ctx) w = Ok (entries, w)).
    { unfold map_entries. destruct (getCtxMeta ctx) as [s | ] eqn:Hs; [ | by eexists].
      destruct (Hctx ctx eq_refl s Hs) as [sc Hsc]. rewrite Hsc. by eexists. }
    destruct Hentries as [entries Hentries]. eexists. split.
    + unfold Error_WithMetaFromContext.
      rewrite (bind_Ok _ _ _ _ _ Hentries).
      rewrite (bind_Ok _ _ _ _ _ (load_Some w l E Hl)), Hm.
      by rewrite (bind_Ok _ _ _ _ _ (range_assign_run entries w m mc Hmc)).
    + apply (map_write_frame l w E m); eauto.
  - eexists. split.
    + unfold Error_WithDebug, modify, mbind, M_bind. by rewrite Hl.
    + by apply (field_write_frame l w E (with_debugMessage msg)).
  - eexists. split.
    + unfold Error_WithSource, modify, mbind, M_bind. by rewrite Hl.
    + by apply (field_write_frame l w E (with_source src)).
  - eexists. split.
    + unfold Error_WithTags, modify, mbind, M_bind. by rewrite Hl.
    + by apply (field_write_frame l w E (λ E, with_tags (tags E ++ ts) E)).
  - eexists. split.
    + unfold Error_WithRetryable, modify, mbind, M_bind. by rewrite Hl.
    + by apply (field_write_frame l w E (with_retryable true)).
Qed.

Lemma calls_run l w bs :
  Error_ready w l →
  Forall (ctx_valid w) (contexts_of bs) →
  ∃ w', calls (Some l) bs w = Ok (Some l, w') ∧ builder_frame l w w'.
Proof.
  revert w. induction bs as [ | b bs IH]; intros w Hready Hctx.
  - exists w. split; [done | ].
    destruct Hready as (E & _ & _ & Hl & _). by apply (builder_frame_refl l w E).
  - destruct (call_run l w b Hready) as (w1 & Hrun1 & Hframe1).
    { intros ctx ->. simpl in Hctx. by apply Forall_cons in Hctx as [? _]. }
    destruct (IH w1) as (w2 & Hrun2 & Hframe2).
    + by apply (Error_ready_frame l w).
    + assert (Htail : Forall (ctx_valid w) (contexts_of bs)).
      { destruct b; simpl in Hctx; try done. by apply Forall_cons in Hctx as [_ ?]. }
      eapply Forall_impl; [exact Htail | ].
      intros ctx Hv. by apply (ctx_valid_frame l w).
    + exists w2. split.
      * simpl. by rewrite (bind_Ok _ _ _ _ _ Hrun1).
      * by apply (builder_frame_trans l w w1 w2).
Qed.

(** X10: a chain of builder calls started on the nil [*Error] returns nil
    and does nothing, whatever the calls and their arguments: a failure
    path can be decorated without a check. *)
Theorem builder_chain_on_nil bs w : calls None bs w = Ok (None, w).
Proof.
  revert w. induction bs as [ | b bs IH]; intros w; [done | ].
  simpl. assert (Hcall : call None b w = Ok (None, w)) by (by destruct b).
  by rewrite (bind_Ok _ _ _ _ _ Hcall).
Qed.

(** X11: a chain of builder calls on a constructed [Error] (both maps
    allocated, the contexts it reads valid) never panics and returns the
    pointer it was started on.  Code, message, cause, stack trace and the
    two map references of the [Error] are as before, every other [Error]
    and every map other than its own two is untouched, nothing is
    allocated and no stack is captured. *)
Theorem builder_chain_same_instance l w bs :
  Error_ready w l →
  Forall (ctx_valid w) (contexts_of bs) →
  ∃ w', calls (Some l) bs w = Ok (Some l, w') ∧
        Error_ready w' l ∧
        (∃ E E', errs w !! l = Some E ∧ errs w' !! l = Some E' ∧ same_core E E' ∧
                 (∀ x, Some x ≠ details E → Some x ≠ metadata E →
                       maps w' !! x = maps w !! x)) ∧
        (∀ l', l' ≠ l → errs w' !! l' = errs w !! l') ∧
        dom (errs w') = dom (errs w) ∧ dom (maps w') = dom (maps w) ∧
        callers_calls w' = callers_calls w.
Proof.
  intros Hready Hctx.
  destruct (calls_run l w bs Hready Hctx) as (w' & Hrun & Hframe).
  exists w'. split; [done | ]. split; [by apply (Error_ready_frame l w) | ].
  destruct Hframe as [(E & E' & Hl & Hl' & Hcore & _ & Hmaps) (Hother & Hdom & Hcalls)].
  split; [by exists E, E' | ]. split; [done | ]. split; [ | done].
  apply set_eq. intros x. rewrite !elem_of_dom.
  destruct (decide (x = l)) as [-> | Hne]; [ | by rewrite Hother].
  rewrite Hl, Hl'. split; eauto.
Qed.

(** X12: the retryable mark is never cleared.  Once [WithRetryable] has
    been called, the [Error] stays retryable through every later chain of
    builder calls. *)
Theorem retryable_never_cleared l w bs1 bs2 :
  Error_ready w l →
  Forall (ctx_valid w) (contexts_of (bs1 ++ call_WithRetryable :: bs2)) →
  ∃ w', calls (Some l) (bs1 ++ call_WithRetryable :: bs2) w = Ok (Some l, w') ∧
        Error_IsRetryable (Some l) w' = Ok (true, w').
Proof.
  intros Hready Hctx.
  assert (Hsplit : ∀ e bs bs' w0,
    calls e (bs ++ bs') w0 = (e' ← calls e bs; calls e' bs') w0).
  { intros e bs. revert e. induction bs as [ | b bs IH]; intros e bs' w0; [done | ].
    simpl. unfold mbind, M_bind.
    destruct (call e b w0) as [[e1 w1] | | ]; [ | done | done].
    rewrite IH. done. }
  assert (Hctxs : ∀ bs bs', contexts_of (bs ++ bs') = contexts_of bs ++ contexts_of bs').
  { intros bs bs'. induction bs as [ | [] bs IH]; simpl; by rewrite ?IH. }
  rewrite Hctxs in Hctx. apply Forall_app in Hctx as [Hctx1 Hctx2]. simpl in Hctx2.
  destruct (calls_run l w bs1 Hready Hctx1) as (w1 & Hrun1 & Hframe1).
  pose proof (Error_ready_frame l w w1 Hready Hframe1) as Hready1.
  destruct (call_run l w1 call_WithRetryable Hready1) as (w2 & Hrun2 & Hframe2);
    [discriminate | ].
  pose proof (Error_ready_frame l w1 w2 Hready1 Hframe2) as Hready2.
  destruct (calls_run l w2 bs2 Hready2) as (w3 & Hrun3 & Hframe3).
  { eapply Forall_impl; [exact Hctx2 | ]. intros ctx Hv.
    apply (ctx_valid_frame l w1); [ | done]. by apply (ctx_valid_frame l w). }
  exists w3. split.
  - rewrite Hsplit, (bind_Ok _ _ _ _ _ Hrun1). simpl.
    by rewrite (bind_Ok _ _ _ _ _ Hrun2).
  - assert (Hset : ∃ E2, errs w2 !! l = Some E2 ∧ retryable E2 = true).
    { destruct Hready1 as (E1 & _ & _ & Hl1 & _).
      simpl in Hrun2. unfold Error_WithRetryable, modify, mbind, M_bind in Hrun2.
      rewrite Hl1 in Hrun2. injection Hrun2 as <-.
      eexists. split; [simpl; apply lookup_insert_eq | done]. }
    destruct Hset as (E2 & Hl2 & Hr2).
    destruct Hframe3 as [(E2' & E3 & Hl2' & Hl3 & _ & Hkeep & _) _].
    assert (E2' = E2) as -> by congruence.
    unfold Error_IsRetryable. rewrite (bind_Ok _ _ _ _ _ (load_Some w3 l E3 Hl3)).
    by rewrite (Hkeep Hr2).
Qed.

(** X13: tags accumulate in call order, duplicates kept: two [WithTags]
    calls in a row are one call with the two lists appended. *)
Theorem WithTags_appends e ts1 ts2 w :
  (e1 ← Error_WithTags e ts1; Error_WithTags e1 ts2) w = Error_WithTags e (ts1 ++ ts2) w.
Proof.
  destruct e as [l | ]; [ | done].
  unfold Error_WithTags, modify, mbind, M_bind.
  destruct (errs w !! l) as [E | ] eqn:Hl; [ | done]. simpl.
  rewrite lookup_insert_eq. unfold set_errs. simpl.
  by rewrite insert_insert_eq, (assoc_L (++)).
Qed.

(** ** Details and metadata *)

Lemma details_at_run w l E d k :
  errs w !! l = Some E → details E = Some d →
  details_at w (Some l) k = default ∅ (maps w !! d) !! k.
Proof.
  intros Hl Hd. unfold details_at, Error_Details.
  by rewrite (bind_Ok _ _ _ _ _ (load_Some w l E Hl)), Hd.
Qed.

Lemma metadata_at_run w l E m k :
  errs w !! l = Some E → metadata E = Some m →
  metadata_at w (Some l) k = default ∅ (maps w !! m) !! k.
Proof.
  intros Hl Hm. unfold metadata_at, Error_Metadata.
  by rewrite (bind_Ok _ _ _ _ _ (load_Some w l E Hl)), Hm.
Qed.

(** X14: [WithDetail] and [WithMeta] are upserts into two separate maps.
    On an [Error] whose maps are two allocated, distinct objects (as
    [newError] makes them), after [WithDetail(k, v)] the details read [v]
    at [k] and are unchanged elsewhere, and the metadata is unchanged;
    symmetrically for [WithMeta].  A second write to the same key wins. *)
Theorem WithDetail_WithMeta_upsert w l E d m k v :
  errs w !! l = Some E → details E = Some d → metadata E = Some m → d ≠ m →
  is_Some (maps w !! d) → is_Some (maps w !! m) →
  (∃ w', Error_WithDetail (Some l) k v w = Ok (Some l, w') ∧
         details_at w' (Some l) k = Some v ∧
         (∀ k', k' ≠ k → details_at w' (Some l) k' = details_at w (Some l) k') ∧
         (∀ k', metadata_at w' (Some l) k' = metadata_at w (Some l) k')) ∧
  (∃ w', Error_WithMeta (Some l) k v w = Ok (Some l, w') ∧
         metadata_at w' (Some l) k = Some v ∧
         (∀ k', k' ≠ k → metadata_at w' (Some l) k' = metadata_at w (Some l) k') ∧
         (∀ k', details_at w' (Some l) k' = details_at w (Some l) k')) ∧
  (∀ v2, ∃ w', (e ← Error_WithMeta (Some l) k v; Error_WithMeta e k v2) w
                 = Ok (Some l, w') ∧
               metadata_at w' (Some l) k = Some v2).
Proof.
  intros Hl Hd Hm Hdm [dc Hdc] [mc Hmc]. split; [ | split].
  - eexists. split.
    + unfold Error_WithDetail.
      rewrite (bind_Ok _ _ _ _ _ (load_Some w l E Hl)), Hd.
      by rewrite (bind_Ok _ _ _ _ _ (map_assign_Some w d dc k v Hdc)).
    + split; [ | split]; intros.
      * rewrite (details_at_run _ l E d) by done. simpl.
        rewrite lookup_insert_eq. simpl. apply lookup_insert_eq.
      * rewrite !(details_at_run _ l E d) by done. simpl.
        rewrite lookup_insert_eq, Hdc. simpl. apply lookup_insert_ne. congruence.
      * rewrite !(metadata_at_run _ l E m) by done. simpl.
        by rewrite lookup_insert_ne.
  - eexists. split; [by apply (Error_WithMeta_run w l E m mc) | ].
    split; [ | split]; intros.
    + rewrite (metadata_at_run _ l E m) by done. simpl.
      rewrite lookup_insert_eq. simpl. apply lookup_insert_eq.
    + rewrite !(metadata_at_run _ l E m) by done. simpl.
      rewrite lookup_insert_eq, Hmc. simpl. apply lookup_insert_ne. congruence.
    + rewrite !(details_at_run _ l E d) by done. simpl.
      rewrite lookup_insert_ne; [done | congruence].
  - intros v2. eexists. split.
    + rewrite (bind_Ok _ _ _ _ _ (Error_WithMeta_run w l E m mc k v Hl Hm Hmc)).
      apply (Error_WithMeta_run _ l E m (<[k := v]> mc)); [done | done | ].
      simpl. apply lookup_insert_eq.
    + rewrite (metadata_at_run _ l E m) by done. simpl.
      rewrite lookup_insert_eq. simpl. apply lookup_insert_eq.
Qed.

Lemma ctx_valid_grows w w' ctx :
  ctx_valid w ctx → (∀ x, is_Some (maps w !! x) → is_Some (maps w' !! x)) →
  ctx_valid w' ctx.
Proof. intros Hv Hgrow s Hs. by apply Hgrow, Hv. Qed.

(** What a constructor call leaves for the calls that follow. *)
Lemma newError_ready w c msg cause_ pc stack :
  ∃ l d m w',
    newError c msg cause_ (pc :: stack) w = Ok (Some l, w') ∧
    Error_ready w' l ∧
    errs w !! l = None ∧
    (∃ E, errs w' !! l = Some E ∧ details E = Some d ∧ metadata E = Some m) ∧
    maps w !! d = None ∧ maps w !! m = None ∧
    maps w' !! d = Some ∅ ∧ maps w' !! m = Some ∅ ∧
    (∀ l', l' ≠ l → errs w' !! l' = errs w !! l') ∧
    (∀ x, is_Some (maps w !! x) → maps w' !! x = maps w !! x).
Proof.
  destruct (newError_effect w c msg cause_ pc stack)
    as (l & d & m & w' & Hrun & -> & Herrs & Hmaps & Hd & Hm & Hdm & _).
  exists (fresh_loc (errs w)), d, m, w'. split; [done | ].
  assert (Hd' : maps w' !! d = Some ∅).
  { by rewrite Hmaps, lookup_insert_ne, lookup_insert_eq. }
  assert (Hm' : maps w' !! m = Some ∅).
  { by rewrite Hmaps, lookup_insert_eq. }
  split.
  { eexists _, d, m. rewrite Herrs, lookup_insert_eq. split; [done | ].
    simpl. rewrite Hd', Hm'. eauto. }
  split; [apply fresh_loc_fresh | ].
  split; [eexists; by rewrite Herrs, lookup_insert_eq | ].
  repeat (split; [done | ]). split.
  - intros l' Hne. by rewrite Herrs, lookup_insert_ne.
  - intros x [xc Hx]. rewrite Hmaps, !lookup_insert_ne; [done | | ]; congruence.
Qed.

(** X15: two values of [New] share nothing.  Whatever chain of builder
    calls decorates the first, the second still reads empty details and
    empty metadata, and is a different pointer. *)
Theorem New_values_are_isolated w c1 msg1 s1 c2 msg2 s2 bs :
  Forall (ctx_valid w) (contexts_of bs) →
  ∃ a b w',
    (a ← New c1 msg1 s1; b ← New c2 msg2 s2; a' ← calls a bs; mret (a', b)) w
      = Ok ((Some a, Some b), w') ∧
    a ≠ b ∧
    (∀ k, details_at w' (Some b) k = None) ∧
    (∀ k, metadata_at w' (Some b) k = None).
Proof.
  intros Hctx. unfold New.
  destruct (newError_ready w c1 msg1 nil_error pc_New s1)
    as (a & da & ma & w1 & Hrun1 & Hready1 & Hnew1 & (Ea & Ha & Hda & Hma) &
        _ & _ & Hda1 & Hma1 & _ & Hkeep1).
  destruct (newError_ready w1 c2 msg2 nil_error pc_New s2)
    as (b & db & mb & w2 & Hrun2 & Hready2 & Hnew2 & (Eb & Hb & Hdb & Hmb) &
        Hdb1 & Hmb1 & Hdb2 & Hmb2 & Hother2 & Hkeep2).
  assert (Hab : a ≠ b) by (intros ->; congruence).
  assert (Ha2 : errs w2 !! a = Some Ea) by (by rewrite Hother2).
  assert (Hreadya : Error_ready w2 a).
  { exists Ea, da, ma. rewrite Ha2. split; [done | ]. split; [done | ].
    rewrite !Hkeep2 by eauto. rewrite Hda1, Hma1. eauto. }
  destruct (calls_run a w2 bs Hreadya) as (w3 & Hrun3 & Hframe).
  { eapply Forall_impl; [exact Hctx | ]. intros ctx Hv.
    apply (ctx_valid_grows w1); [apply (ctx_valid_grows w) | ]; [done | | ].
    - intros x Hx. by rewrite Hkeep1.
    - intros x Hx. by rewrite Hkeep2. }
  exists a, b, w3. split.
  { rewrite (bind_Ok _ _ _ _ _ Hrun1), (bind_Ok _ _ _ _ _ Hrun2).
    by rewrite (bind_Ok _ _ _ _ _ Hrun3). }
  split; [done | ].
  destruct Hframe as [(Ea' & Ea3 & Ha2' & _ & _ & _ & Hmaps) (Hother3 & _)].
  assert (Ea' = Ea) as -> by congruence.
  assert (Hb3 : errs w3 !! b = Some Eb) by (rewrite Hother3; [done | congruence]).
  assert (Hfresh : ∀ x, maps w1 !! x = None → Some x ≠ details Ea ∧ Some x ≠ metadata Ea).
  { intros x Hx. rewrite Hda, Hma. split; intros [= ->]; congruence. }
  split; intros k.
  - rewrite (details_at_run w3 b Eb db) by done.
    rewrite Hmaps; [by rewrite Hdb2 | apply Hfresh, Hdb1 | apply Hfresh, Hdb1].
  - rewrite (metadata_at_run w3 b Eb mb) by done.
    rewrite Hmaps; [by rewrite Hmb2 | apply Hfresh, Hmb1 | apply Hfresh, Hmb1].
Qed.

(** ** Merging a context into an error *)

(** X16: [WithMetaFromContext] with a context that carries no metadata
    (the nil context, [context.Background()], a context holding only other
    keys) returns the same pointer and changes nothing, even on an [Error]
    whose metadata map is nil. *)
Theorem WithMetaFromContext_without_metadata w l E ctx :
  errs w !! l = Some E → getCtxMeta ctx = None →
  Error_WithMetaFromContext (Some l) ctx w = Ok (Some l, w).
Proof.
  intros Hl Hnone. unfold Error_WithMetaFromContext. rewrite Hnone.
  erewrite bind_Ok; [ | reflexivity].
  by rewrite (bind_Ok _ _ _ _ _ (load_Some w l E Hl)).
Qed.

(** X17: [WithMetaFromContext] merges the snapshot over the metadata:
    afterwards the metadata map is the snapshot's entries over the old
    ones, the snapshot itself reads as before, and merging the same
    context a second time changes nothing. *)
Theorem WithMetaFromContext_merges w l E m content ctx s snap :
  errs w !! l = Some E → metadata E = Some m → maps w !! m = Some content →
  getCtxMeta ctx = Some s → maps w !! s = Some snap → m ≠ s →
  ∃ w', Error_WithMetaFromContext (Some l) ctx w = Ok (Some l, w') ∧
        map_content w' (metadata E) = snap ∪ content ∧
        (∀ k, metadata_at w' (Some l) k
              = match snap !! k with Some v => Some v | None => content !! k end) ∧
        snapshot w' ctx = snap ∧
        Error_WithMetaFromContext (Some l) ctx w' = Ok (Some l, w').
Proof.
  intros Hl Hm Hc Hs Hsnap Hne.
  rewrite (Error_WithMetaFromContext_run w l E m content ctx s snap) by done.
  eexists. split; [reflexivity | ].
  assert (Hcontent : map_content (set_maps <[m := snap ∪ content]> w) (metadata E)
                       = snap ∪ content).
  { rewrite Hm. simpl. by rewrite lookup_insert_eq. }
  split; [exact Hcontent | ]. split; [ | split].
  - intros k. rewrite (metadata_at_set_maps w l E m _ k Hl Hm), lookup_union.
    destruct (snap !! k), (content !! k); done.
  - unfold snapshot. rewrite Hs. simpl. by rewrite lookup_insert_ne, Hsnap.
  - rewrite (Error_WithMetaFromContext_run (set_maps <[m := snap ∪ content]> w)
               l E m (snap ∪ content) ctx s snap);
      [ | done | done | simpl; apply lookup_insert_eq | done
        | simpl; by rewrite lookup_insert_ne ].
    by rewrite set_maps_twice, (assoc_L (∪)), (idemp_L (∪) snap).
Qed.

(** X18: decorating an error never writes into a context.  After any
    chain of builder calls on an [Error] whose two maps are not the
    context's map, the context's snapshot reads as before. *)
Theorem builders_leave_contexts_alone l w bs ctx :
  Error_ready w l →
  Forall (ctx_valid w) (contexts_of bs) →
  (∀ E s, errs w !! l = Some E → getCtxMeta ctx = Some s →
          Some s ≠ details E ∧ Some s ≠ metadata E) →
  ∃ w', calls (Some l) bs w = Ok (Some l, w') ∧ snapshot w' ctx = snapshot w ctx.
Proof.
  intros Hready Hctx Hdistinct.
  destruct (calls_run l w bs Hready Hctx) as (w' & Hrun & Hframe).
  exists w'. split; [done | ].
  destruct Hframe as [(E & E' & Hl & _ & _ & _ & Hmaps) _].
  unfold snapshot, map_content. destruct (getCtxMeta ctx) as [s | ] eqn:Hs; [ | done].
  destruct (Hdistinct E s Hl eq_refl) as [? ?]. by rewrite Hmaps.
Qed.

(** ** Deriving contexts *)

Lemma spec_pairs_app n (kv1 kv2 : list any) :
  length kv1 = 2 * n →
  spec_pairs (kv1 ++ kv2) = spec_pairs kv1 ++ spec_pairs kv2.
Proof.
  revert kv1. induction n as [ | n IH]; intros kv1 Hlen.
  - by destruct kv1.
  - destruct kv1 as [ | k [ | v rest]]; simpl in Hlen; try lia.
    simpl. f_equal. apply IH. lia.
Qed.

Lemma spec_string_pairs_app (p1 p2 : list (any * any)) :
  spec_string_pairs (p1 ++ p2) = spec_string_pairs p1 ++ spec_string_pairs p2.
Proof.
  induction p1 as [ | [k v] p1 IH]; [done | ].
  destruct k; simpl; by rewrite IH.
Qed.

(** Two merges in a row are one merge of the concatenated pairs, when the
    first list has no trailing key. *)
Lemma spec_attach_app n parent (kv1 kv2 : list any) :
  length kv1 = 2 * n →
  spec_attach (spec_attach parent kv1) kv2 = spec_attach parent (kv1 ++ kv2).
Proof.
  intros Hlen. unfold spec_attach.
  rewrite (spec_pairs_app n kv1 kv2 Hlen), spec_string_pairs_app, reverse_app.
  by rewrite list_to_map_app, (assoc_L (∪)).
Qed.

(** Everything a derivation does, for the calls that follow it. *)
Lemma WithMetaContext_effect w parent keyvals :
  ctx_valid w (Some parent) →
  ∃ l w',
    WithMetaContext (Some parent) keyvals w
      = Ok (Some (valueCtx parent errxCtxKey (ctx_map (Some l))), w') ∧
    maps w !! l = None ∧
    maps w' !! l = Some (spec_attach (snapshot w (Some parent)) keyvals) ∧
    snapshot w' (Some (valueCtx parent errxCtxKey (ctx_map (Some l))))
      = spec_attach (snapshot w (Some parent)) keyvals ∧
    ctx_valid w' (Some (valueCtx parent errxCtxKey (ctx_map (Some l)))) ∧
    (∀ x, is_Some (maps w !! x) → maps w' !! x = maps w !! x) ∧
    (∀ ctx, ctx_valid w ctx → ctx_valid w' ctx ∧ snapshot w' ctx = snapshot w ctx) ∧
    errs w' = errs w ∧ callers_calls w' = callers_calls w.
Proof.
  intros Hv. rewrite (WithMetaContext_run _ _ _ Hv).
  set (l := fresh_loc (maps w)).
  set (merged := spec_attach (snapshot w (Some parent)) keyvals).
  exists l, (set_maps <[l := merged]> w). split; [done | ].
  assert (Hkeep : ∀ x, is_Some (maps w !! x) →
    maps (set_maps <[l := merged]> w) !! x = maps w !! x).
  { intros x Hx. simpl. apply lookup_insert_ne, not_eq_sym, fresh_loc_ne, Hx. }
  split; [apply fresh_loc_fresh | ].
  split; [simpl; apply lookup_insert_eq | ].
  split; [unfold snapshot; simpl; by rewrite lookup_insert_eq | ].
  split; [intros s [= <-]; simpl; rewrite lookup_insert_eq; eauto | ].
  split; [exact Hkeep | ]. split; [ | done].
  intros ctx Hctx. split.
  - intros s Hs. rewrite Hkeep; by apply Hctx.
  - unfold snapshot, map_content. destruct (getCtxMeta ctx) as [s | ] eqn:Hs; [ | done].
    by rewrite (Hkeep s (Hctx s Hs)).
Qed.

(** X19: deriving twice is deriving once with the pairs appended.  When
    the first list has an even number of arguments, the grandchild of
    [parent] by [kv1] then [kv2] reads the same snapshot as the child of
    [parent] by [kv1 ++ kv2]. *)
Theorem WithMetaContext_composes w parent kv1 kv2 n :
  ctx_valid w (Some parent) → length kv1 = 2 * n →
  ∃ c1 w1 c2 w2 c w',
    WithMetaContext (Some parent) kv1 w = Ok (Some c1, w1) ∧
    WithMetaContext (Some c1) kv2 w1 = Ok (Some c2, w2) ∧
    WithMetaContext (Some parent) (kv1 ++ kv2) w = Ok (Some c, w') ∧
    snapshot w2 (Some c2) = snapshot w' (Some c).
Proof.
  intros Hv Hlen.
  destruct (WithMetaContext_effect w parent kv1 Hv)
    as (l1 & w1 & Hrun1 & _ & _ & Hsnap1 & Hv1 & _).
  destruct (WithMetaContext_effect w1 _ kv2 Hv1)
    as (l2 & w2 & Hrun2 & _ & _ & Hsnap2 & _).
  destruct (WithMetaContext_effect w parent (kv1 ++ kv2) Hv)
    as (l & w' & Hrun & _ & _ & Hsnap & _).
  eexists _, w1, _, w2, _, w'. repeat (split; [done | ]).
  by rewrite Hsnap2, Hsnap1, Hsnap, (spec_attach_app n).
Qed.

(** X20: children of one parent do not see each other.  After two
    derivations from the same parent, each child reads the parent's
    snapshot merged with its own pairs only, and the parent reads what it
    read at the start. *)
Theorem WithMetaContext_siblings_isolated w parent kv1 kv2 :
  ctx_valid w (Some parent) →
  ∃ c1 w1 c2 w2,
    WithMetaContext (Some parent) kv1 w = Ok (Some c1, w1) ∧
    WithMetaContext (Some parent) kv2 w1 = Ok (Some c2, w2) ∧
    snapshot w2 (Some c1) = spec_attach (snapshot w (Some parent)) kv1 ∧
    snapshot w2 (Some c2) = spec_attach (snapshot w (Some parent)) kv2 ∧
    snapshot w2 (Some parent) = snapshot w (Some parent).
Proof.
  intros Hv.
  destruct (WithMetaContext_effect w parent kv1 Hv)
    as (l1 & w1 & Hrun1 & _ & _ & Hsnap1 & Hv1 & _ & Hctx1 & _).
  destruct (Hctx1 _ Hv) as [Hvp1 Hsnapp1].
  destruct (WithMetaContext_effect w1 parent kv2 Hvp1)
    as (l2 & w2 & Hrun2 & _ & _ & Hsnap2 & _ & _ & Hctx2 & _).
  eexists _, w1, _, w2. split; [done | ]. split; [done | ].
  destruct (Hctx2 _ Hv1) as [_ ->]. destruct (Hctx2 _ Hvp1) as [_ ->].
  by rewrite Hsnap1, Hsnap2, Hsnapp1.
Qed.

(** X21: a derivation binds the private key only, to a map made for it.
    The child answers every other key as the parent does, its metadata
    map is an object that did not exist before the call (never the
    parent's), no [Error] is touched and no stack captured. *)
Theorem WithMetaContext_binds_private_key_only w parent keyvals :
  ctx_valid w (Some parent) →
  ∃ child l w',
    WithMetaContext (Some parent) keyvals w = Ok (Some child, w') ∧
    (∀ n, ctx_Value child (otherCtxKey n) = ctx_Value parent (otherCtxKey n)) ∧
    getCtxMeta (Some child) = Some l ∧ maps w !! l = None ∧
    getCtxMeta (Some parent) ≠ Some l ∧
    errs w' = errs w ∧ callers_calls w' = callers_calls w.
Proof.
  intros Hv.
  destruct (WithMetaContext_effect w parent keyvals Hv)
    as (l & w' & Hrun & Hfresh & _ & _ & _ & _ & _ & Herrs & Hcalls).
  eexists _, l, w'. split; [exact Hrun | ]. split; [done | ]. split; [done | ].
  split; [done | ]. split; [ | done].
  intros Hp. destruct (Hv l Hp) as [? ?]. congruence.
Qed.

(** X22: the whole path of [TestWithMetaContext_StoresMetadata].  An error
    built after a derivation and merged with the child context carries
    exactly the child's snapshot as metadata: the parent's entries with the
    supplied string-keyed pairs on top. *)
Theorem context_metadata_reaches_error w parent keyvals c msg stack :
  ctx_valid w (Some parent) →
  ∃ l w',
    (ctx ← WithMetaContext (Some parent) keyvals;
     e ← New c msg stack;
     Error_WithMetaFromContext e ctx) w = Ok (Some l, w') ∧
    ∀ k, metadata_at w' (Some l) k
           = spec_attach (snapshot w (Some parent)) keyvals !! k.
Proof.
  intros Hv.
  destruct (WithMetaContext_effect w parent keyvals Hv)
    as (s & w1 & Hrun1 & _ & Hs1 & _).
  unfold New.
  destruct (newError_ready w1 c msg nil_error pc_New stack)
    as (l & d & m & w2 & Hrun2 & _ & _ & (E & Hl & _ & Hm) & _ & Hmfresh & _ & Hm2 & _ & Hkeep).
  assert (Hs2 : maps w2 !! s = Some (spec_attach (snapshot w (Some parent)) keyvals)).
  { rewrite Hkeep; [done | eauto]. }
  assert (Hms : m ≠ s) by (intros ->; congruence).
  exists l. eexists. split.
  - rewrite (bind_Ok _ _ _ _ _ Hrun1), (bind_Ok _ _ _ _ _ Hrun2).
    by apply (Error_WithMetaFromContext_run w2 l E m ∅ _ s).
  - intros k. rewrite (metadata_at_set_maps w2 l E m _ k Hl Hm).
    by rewrite (right_id_L ∅ (∪)).
Qed.

(** ** Cause links *)

Lemma call_keeps_causes e b w e' w' l :
  call e b w = Ok (e', w') → cause <$> errs w' !! l = cause <$> errs w !! l.
Proof.
  assert (Hmod : ∀ x (f : Error → Error) r w0,
    (∀ E, cause (f E) = cause E) →
    (modify (Some x) f ;; ret (Some x)) w = Ok (r, w0) →
    cause <$> errs w0 !! l = cause <$> errs w !! l).
  { intros x f r w0 Hf. unfold mbind, M_bind, modify.
    destruct (errs w !! x) as [E | ] eqn:Hx; [ | done]. intros [= _ <-]. simpl.
    destruct (decide (x = l)) as [-> | Hne].
    - by rewrite lookup_insert_eq, Hx; simpl; rewrite Hf.
    - by rewrite lookup_insert_ne. }
  assert (Hmap : ∀ x (field : Error → option loc) k v r w0,
    (E ← load (Some x); map_assign (field E) k v ;; ret (Some x)) w = Ok (r, w0) →
    cause <$> errs w0 !! l = cause <$> errs w !! l).
  { intros x field k v r w0. unfold mbind, M_bind, load.
    destruct (errs w !! x) as [E | ]; [ | done].
    destruct (map_assign (field E) k v w) as [[[] w1] | | ] eqn:Hassign; try done.
    intros [= _ <-]. by apply map_assign_frame in Hassign as [-> _]. }
  destruct e as [x | ]; [ | destruct b; by intros [= _ <-]].
  destruct b as [k v | k v | ctx | msg | src | ts | ]; simpl.
  - apply Hmap.
  - apply Hmap.
  - unfold Error_WithMetaFromContext, mbind, M_bind.
    destruct (map_entries (getCtxMeta ctx) w) as [[entries w0] | | ] eqn:Hentries;
      try done.
    assert (w0 = w) as ->.
    { unfold map_entries in Hentries. destruct (getCtxMeta ctx) as [s | ].
      - destruct (maps w !! s); [ | done]. by injection Hentries as _ <-.
      - by injection Hentries as _ <-. }
    unfold load. destruct (errs w !! x) as [E | ]; [ | done].
    destruct (range_assign entries (metadata E) w) as [[[] w1] | | ] eqn:Hrange;
      try done.
    intros [= _ <-]. by apply range_assign_frame in Hrange as [-> _].
  - by apply Hmod.
  - by apply Hmod.
  - by apply Hmod.
  - by apply Hmod.
Qed.

Lemma calls_keep_causes bs e w e' w' l :
  calls e bs w = Ok (e', w') → cause <$> errs w' !! l = cause <$> errs w !! l.
Proof.
  revert e w. induction bs as [ | b bs IH]; intros e w; simpl.
  - by intros [= _ <-].
  - unfold mbind, M_bind. destruct (call e b w) as [[e1 w1] | | ] eqn:Hcall; try done.
    intros Hrest. rewrite (IH _ _ Hrest). by apply (call_keeps_causes e b w e1 w1).
Qed.

Lemma error_valid_ptr w l : is_Some (errs w !! l) → error_valid w (ptrError (Some l)).
Proof. intros Hl x Hx. simpl in Hx. apply list_elem_of_singleton in Hx. congruence. Qed.

(** X23: the constructors and the builders keep every cause older than
    the node that holds it.  In a store with that order, wrapping or
    ensuring an error whose [*Error] pointers are allocated, building a
    new value, and any chain of builder calls all give a store with that
    order again; the value a constructor returns is allocated. *)
Theorem cause_order_is_kept w :
  causes_older w →
  (∀ c msg stack e w', New c msg stack w = Ok (e, w') →
     causes_older w' ∧ error_valid w' (ptrError e)) ∧
  (∀ err c msg stack e w', error_valid w err → Wrap err c msg stack w = Ok (e, w') →
     causes_older w' ∧ error_valid w' (ptrError e)) ∧
  (∀ err c msg stack e w', error_valid w err → Ensure err c msg stack w = Ok (e, w') →
     causes_older w' ∧ error_valid w' (ptrError e)) ∧
  (∀ e bs e' w', calls e bs w = Ok (e', w') → causes_older w').
Proof.
  intros Hord.
  assert (Hnew : ∀ c msg cause_ stack e w', error_valid w cause_ →
    newError c msg cause_ stack w = Ok (e, w') →
    causes_older w' ∧ error_valid w' (ptrError e)).
  { intros c msg cause_ stack e w' Hvalid Hrun.
    split; [by apply (newError_causes_older w w' e c msg cause_ stack) | ].
    rewrite newError_run in Hrun. injection Hrun as <- <-.
    apply error_valid_ptr. simpl. rewrite lookup_insert_eq. eauto. }
  assert (Hnil : error_valid w nil_error).
  { intros x Hx. by apply elem_of_nil in Hx. }
  assert (Hnone : ∀ w0, error_valid w0 (ptrError None)).
  { intros w0 x Hx. simpl in Hx. apply list_elem_of_singleton in Hx. discriminate. }
  split; [intros c msg stack e w'; by apply Hnew | ].
  split; [ | split].
  - intros err c msg stack e w' Hvalid. unfold Wrap. destruct (is_nil err).
    + by intros [= <- <-].
    + by apply Hnew.
  - intros err c msg stack e w' Hvalid. unfold Ensure. destruct (is_nil err).
    + by intros [= <- <-].
    + rewrite (bind_Ok _ _ _ _ _ (As_first_Error w err)).
      destruct (first_Error err) as [p | ] eqn:Hfirst; [ | by apply Hnew].
      intros [= <- <-]. split; [done | ].
      destruct p as [x | ]; [ | done].
      apply error_valid_ptr, Hvalid. by apply first_Error_in_chain.
  - intros e bs e' w' Hrun l E l' Hl Hl'.
    pose proof (calls_keep_causes bs e w e' w' l Hrun) as Hcause.
    unfold loc in *. rewrite Hl in Hcause. simpl in Hcause.
    symmetry in Hcause. apply fmap_Some in Hcause as (E0 & Hl0 & Hcause).
    rewrite Hcause in Hl'. by apply (Hord l E0 l').
Qed.

Lemma reach_below w :
  causes_older w →
  ∀ err node, reach w err node →
  ∀ n l', node = ptrError (Some l') →
    (∀ x, ptrError (Some x) ∈ chain err → x < n) → l' < n.
Proof.
  intros Hord err node Hreach.
  induction Hreach as [err | ty msg inner node _ IH | ty errs e node Hin _ IH
                      | l E node Hl _ IH]; intros n l' Hnode Hbound.
  - subst err. apply Hbound. left.
  - apply (IH n l' Hnode). intros x Hx. apply Hbound. by right.
  - apply (IH n l' Hnode). intros x Hx. apply Hbound.
    by apply (chain_join_part ty errs e).
  - assert (Hl' : l' < l).
    { apply (IH l l' Hnode). intros x Hx. by apply (Hord l E x). }
    assert (Hln : l < n) by (apply Hbound; left).
    exact (Nat.lt_trans _ _ _ Hl' Hln).
Qed.

(** X24: no [Error] is behind its own cause link.  With every cause older
    than its holder, unwrapping from the cause of an [Error] never comes
    back to that [Error]: the cause chain is acyclic. *)
Theorem no_Error_is_its_own_cause w l E :
  causes_older w → errs w !! l = Some E →
  ¬ reach w (cause E) (ptrError (Some l)).
Proof.
  intros Hord Hl Hreach.
  apply (Nat.lt_irrefl l).
  apply (reach_below w Hord _ _ Hreach l l eq_refl).
  intros x Hx. by apply (Hord l E x).
Qed.

(** ** The two renderings *)

Lemma map_read_content m w c w' :
  map_read m w = Ok (c, w') → w' = w ∧ c = map_content w m.
Proof.
  unfold map_read, map_content. destruct m as [l | ].
  - destruct (maps w !! l); [ | done]. by intros [= <- <-].
  - by intros [= <- <-].
Qed.

Lemma size_pos_decide (c : gmap string any) :
  bool_decide (0 < size c) = bool_decide (c ≠ ∅).
Proof.
  apply bool_decide_ext. rewrite <- map_size_non_empty_iff. lia.
Qed.

Lemma length_pos_decide (l : list string) :
  bool_decide (0 < length l) = bool_decide (l ≠ []).
Proof.
  apply bool_decide_ext. destruct l; simpl; split; intros; try done; lia.
Qed.

Section RenderingFacts.
Variable Code_String : Code → string.
Variable fmt_strings : list string → string.
Variable fmt_map : gmap string any → string.
Variable fmt_foreign : error → string.

(** The segments of [DebugMessage], as the set fields in order. *)
Lemma Error_DebugMessage_run w l E dc mc text :
  errs w !! l = Some E →
  map_read (details E) w = Ok (dc, w) →
  map_read (metadata E) w = Ok (mc, w) →
  (is_nil (cause E) = false → fmt_error fmt_foreign (cause E) w = Ok (text, w)) →
  Error_DebugMessage Code_String fmt_strings fmt_map fmt_foreign (Some l) w
    = Ok (String.concat " | "
            (("[" +:+ Code_String (code E) +:+ "] " +:+ message E) ::
             map (λ f, field_name f +:+ "=" +:+ field_text fmt_strings fmt_map w E text f)
                 (fields_set w E)), w).
Proof.
  intros Hl Hd Hm Hcause. unfold Error_DebugMessage.
  rewrite (bind_Ok _ _ _ _ _ (load_Some w l E Hl)).
  rewrite (bind_Ok _ _ _ _ _ Hd), (bind_Ok _ _ _ _ _ Hm).
  apply map_read_content in Hd as [_ ->]. apply map_read_content in Hm as [_ ->].
  unfold fields_set, all_fields, field_set. simpl.
  rewrite !size_pos_decide, length_pos_decide.
  destruct (is_nil (cause E)) eqn:Hn.
  - destruct (bool_decide (source E ≠ "")), (bool_decide (tags E ≠ [])),
      (bool_decide (map_content w (details E) ≠ ∅)),
      (bool_decide (map_content w (metadata E) ≠ ∅)), (retryable E),
      (bool_decide (debugMessage E ≠ "" ∧ debugMessage E ≠ message E)); reflexivity.
  - specialize (Hcause eq_refl).
    destruct (bool_decide (source E ≠ "")), (bool_decide (tags E ≠ [])),
      (bool_decide (map_content w (details E) ≠ ∅)),
      (bool_decide (map_content w (metadata E) ≠ ∅)), (retryable E),
      (bool_decide (debugMessage E ≠ "" ∧ debugMessage E ≠ message E));
      unfold mbind, M_bind; rewrite Hcause; reflexivity.
Qed.

(** The attributes of [LogValue], as the set fields in order. *)
Lemma Error_LogValue_run w l E dc mc :
  errs w !! l = Some E →
  map_read (details E) w = Ok (dc, w) →
  map_read (metadata E) w = Ok (mc, w) →
  Error_LogValue Code_String (Some l) w
    = Ok (Some (("code", slog_String (Code_String (code E))) ::
                ("message", slog_String (message E)) ::
                map (λ f, (field_name f, field_value E f)) (fields_set w E)), w).
Proof.
  intros Hl Hd Hm. unfold Error_LogValue.
  rewrite (bind_Ok _ _ _ _ _ (load_Some w l E Hl)).
  rewrite (bind_Ok _ _ _ _ _ Hd), (bind_Ok _ _ _ _ _ Hm).
  apply map_read_content in Hd as [_ ->]. apply map_read_content in Hm as [_ ->].
  unfold fields_set, all_fields, field_set. simpl.
  rewrite !size_pos_decide, length_pos_decide.
  destruct (bool_decide (source E ≠ "")), (bool_decide (tags E ≠ [])),
    (bool_decide (map_content w (details E) ≠ ∅)),
    (bool_decide (map_content w (metadata E) ≠ ∅)), (retryable E),
    (bool_decide (debugMessage E ≠ "" ∧ debugMessage E ≠ message E)),
    (is_nil (cause E)); reflexivity.
Qed.
End RenderingFacts.

Lemma fmt_error_grows fmt_foreign err w w' text :
  (∀ x, is_Some (errs w !! x) → errs w' !! x = errs w !! x) →
  fmt_error fmt_foreign err w = Ok (text, w) →
  fmt_error fmt_foreign err w' = Ok (text, w').
Proof.
  intros Hgrow. destruct err as [ | [x | ] | ty msg | ty msg inner | ty errs]; simpl;
    try done; try (by intros [= <-]).
  unfold mbind, M_bind, load. destruct (errs w !! x) as [E | ] eqn:Hx; [ | done].
  rewrite (Hgrow x) by eauto. rewrite Hx. by intros [= <-].
Qed.

Lemma fields_set_fresh w c msg cause_ d m st :
  maps w !! d = Some ∅ → maps w !! m = Some ∅ →
  fields_set w (mkError c msg "" cause_ "" [] (Some d) (Some m) st false)
    = if is_nil cause_ then [] else [f_cause].
Proof.
  intros Hd Hm. unfold fields_set, all_fields, field_set. simpl.
  rewrite Hd, Hm. simpl.
  rewrite (bool_decide_eq_false_2 (∅ ≠ ∅)) by (intros Hne; by apply Hne).
  by destruct (is_nil cause_).
Qed.

Section RenderingProperties.
Variable Code_String : Code → string.
Variable fmt_strings : list string → string.
Variable fmt_map : gmap string any → string.
Variable fmt_foreign : error → string.

(** X25: [DebugMessage] and [LogValue] show the same fields in the same
    fixed order.  After the leading code and message, each lists exactly
    the fields that are set (non-empty source, tags, details, metadata;
    the retryable mark; a debug message that is non-empty and differs
    from the message; a non-nil cause), as [name=text] segments joined by
    [" | "] in the one and as attributes of those names in the other;
    the cause appears in the one as what the [%v] verb prints for it (for
    an [*Error] cause the text of its [Error()]; for a foreign cause the
    output of its [Format] method when it has one) and in the other as
    the error value. *)
Theorem renderings_list_the_set_fields w l E dc mc text :
  errs w !! l = Some E →
  map_read (details E) w = Ok (dc, w) →
  map_read (metadata E) w = Ok (mc, w) →
  (is_nil (cause E) = false → fmt_error fmt_foreign (cause E) w = Ok (text, w)) →
  Error_DebugMessage Code_String fmt_strings fmt_map fmt_foreign (Some l) w
    = Ok (String.concat " | "
            (("[" +:+ Code_String (code E) +:+ "] " +:+ message E) ::
             map (λ f, field_name f +:+ "=" +:+ field_text fmt_strings fmt_map w E text f)
                 (fields_set w E)), w) ∧
  Error_LogValue Code_String (Some l) w
    = Ok (Some (("code", slog_String (Code_String (code E))) ::
                ("message", slog_String (message E)) ::
                map (λ f, (field_name f, field_value E f)) (fields_set w E)), w).
Proof.
  intros Hl Hd Hm Hcause. split.
  - by apply (Error_DebugMessage_run _ _ _ _ w l E dc mc text).
  - by apply (Error_LogValue_run _ w l E dc mc).
Qed.

(** X26: a value fresh from a constructor renders bare.  For [New] the
    debug message is ["[code] message"] alone and the log value holds the
    two attributes [code] and [message] only; for [Wrap] of a non-nil
    error one [cause] entry is added: what the [%v] verb prints for the
    cause in the one (the message of an [*Error] cause, one level and not
    its own debug message; for a foreign cause what [fmt] prints for it,
    through its [Format] method when it has one), the error itself in the
    other. *)
Theorem fresh_values_render_bare w c msg stack :
  (∃ l w', New c msg stack w = Ok (Some l, w') ∧
     Error_DebugMessage Code_String fmt_strings fmt_map fmt_foreign (Some l) w'
       = Ok ("[" +:+ Code_String c +:+ "] " +:+ msg, w') ∧
     Error_LogValue Code_String (Some l) w'
       = Ok (Some [("code", slog_String (Code_String c));
                   ("message", slog_String msg)], w')) ∧
  (∀ err text, err ≠ nil_error → fmt_error fmt_foreign err w = Ok (text, w) →
   ∃ l w', Wrap err c msg stack w = Ok (Some l, w') ∧
     Error_DebugMessage Code_String fmt_strings fmt_map fmt_foreign (Some l) w'
       = Ok (("[" +:+ Code_String c +:+ "] " +:+ msg) +:+ " | " +:+ "cause=" +:+ text, w') ∧
     Error_LogValue Code_String (Some l) w'
       = Ok (Some [("code", slog_String (Code_String c));
                   ("message", slog_String msg);
                   ("cause", slog_Error err)], w')) ∧
  (∀ x E0, errs w !! x = Some E0 →
           fmt_error fmt_foreign (ptrError (Some x)) w = Ok (message E0, w)) ∧
  (∀ err, type_of err ≠ None → type_of err ≠ Some TyError →
          fmt_error fmt_foreign err w = Ok (fmt_foreign err, w)).
Proof.
  assert (Hany : ∀ cause_ pc text,
    (is_nil cause_ = false → fmt_error fmt_foreign cause_ w = Ok (text, w)) →
    ∃ l w', newError c msg cause_ (pc :: stack) w = Ok (Some l, w') ∧
      Error_DebugMessage Code_String fmt_strings fmt_map fmt_foreign (Some l) w'
        = Ok (String.concat " | "
                (("[" +:+ Code_String c +:+ "] " +:+ msg) ::
                 if is_nil cause_ then [] else ["cause=" +:+ text]), w') ∧
      Error_LogValue Code_String (Some l) w'
        = Ok (Some (("code", slog_String (Code_String c)) ::
                    ("message", slog_String msg) ::
                    if is_nil cause_ then [] else [("cause", slog_Error cause_)]), w')).
  { intros cause_ pc text Htext.
    destruct (newError_ready w c msg cause_ pc stack)
      as (l & d & m & w' & Hrun & _ & _ & (E & Hl & Hd & Hm) & _ & _ & Hd' & Hm' & Hother & _).
    destruct (newError_effect w c msg cause_ pc stack)
      as (l0 & d0 & m0 & w0 & Hrun0 & -> & Herrs & _).
    rewrite Hrun in Hrun0. injection Hrun0 as -> <-.
    rewrite Herrs, lookup_insert_eq in Hl. injection Hl as <-. simpl in Hd, Hm.
    injection Hd as ->. injection Hm as ->.
    assert (Hl : errs w' !! fresh_loc (errs w) = Some
      (mkError c msg "" cause_ "" [] (Some d) (Some m) (take maxDepth stack) false)).
    { by rewrite Herrs, lookup_insert_eq. }
    assert (Hrd : ∀ x, maps w' !! x = Some ∅ → map_read (Some x) w' = Ok (∅, w')).
    { intros x Hx. unfold map_read. by rewrite Hx. }
    exists (fresh_loc (errs w)), w'. split; [done | ]. split.
    - rewrite (Error_DebugMessage_run _ _ _ _ w' _ _ ∅ ∅ text Hl);
        [ | by apply Hrd | by apply Hrd | ].
      + rewrite (fields_set_fresh w' c msg cause_ d m _ Hd' Hm'). simpl.
        by destruct (is_nil cause_).
      + simpl. intros Hn. apply (fmt_error_grows fmt_foreign cause_ w w'); [ | by apply Htext].
        intros x Hx. apply Hother, fresh_loc_ne, Hx.
    - rewrite (Error_LogValue_run _ w' _ _ ∅ ∅ Hl); [ | by apply Hrd | by apply Hrd].
      rewrite (fields_set_fresh w' c msg cause_ d m _ Hd' Hm'). simpl.
      by destruct (is_nil cause_). }
  split; [ | split; [ | split]].
  - destruct (Hany nil_error pc_New "") as (l & w' & Hrun & Hdbg & Hlog); [done | ].
    by exists l, w'.
  - intros err text Hnn Htext.
    destruct (Hany err pc_Wrap text) as (l & w' & Hrun & Hdbg & Hlog); [done | ].
    exists l, w'. unfold Wrap. rewrite (is_nil_false err Hnn) in *. done.
  - intros x E0 Hx. simpl. unfold Error_Error.
    by rewrite (bind_Ok _ _ _ _ _ (load_Some w x E0 Hx)).
  - intros [ | p | ty m0 | ty m0 inner | ty parts] Hty Hforeign; done.
Qed.
End RenderingProperties.

(** ** Instances of the further properties on the sample store *)

Lemma sample_outer_ready : Error_ready sample_world 2.
Proof.
  exists sample_outer, 3, 4. split; [reflexivity | ].
  split; [reflexivity | ]. split; [vm_compute; eauto | ].
  split; [reflexivity | vm_compute; eauto].
Defined.

Lemma sample_lookup_cases l E :
  errs sample_world !! l = Some E →
  (l = 2 ∧ E = sample_outer) ∨ (l = 1 ∧ E = sample_inner).
Proof.
  unfold sample_world. simpl. intros Hl.
  destruct (decide (l = 2)) as [-> | Hne2].
  - rewrite lookup_insert_eq in Hl. left. split; [done | congruence].
  - rewrite lookup_insert_ne in Hl by done.
    destruct (decide (l = 1)) as [-> | Hne1].
    + rewrite lookup_insert_eq in Hl. right. split; [done | congruence].
    + rewrite lookup_insert_ne in Hl by done. by rewrite lookup_empty in Hl.
Defined.

Lemma sample_causes_older : causes_older sample_world.
Proof.
  intros l E l' Hl Hin.
  destruct (sample_lookup_cases l E Hl) as [[-> ->] | [-> ->]]; simpl in Hin.
  - apply list_elem_of_singleton in Hin. injection Hin as ->. lia.
  - by apply elem_of_nil in Hin.
Defined.

Lemma constructor_then_readers_witness :
  ∃ l w', Wrap (leafError 0 "plain") CodeInternal "x" [100%N] sample_world
            = Ok (Some l, w') ∧
          Error_Code (Some l) w' = Ok (CodeInternal, w') ∧
          Error_Unwrap (Some l) w' = Ok (leafError 0 "plain", w').
Proof.
  destruct (proj1 (constructor_then_readers sample_world CodeInternal "x" [100%N])
              (leafError 0 "plain")) as (l & w' & Hrun & Hcode & _ & Hunwrap & _).
  - discriminate.
  - by exists l, w'.
Defined.

Lemma predicates_read_first_ErrorValue_witness :
  Is (wrapError 0 "outer" (ptrError (Some 2))) sample_world = Ok (true, sample_world) ∧
  CodeOf (wrapError 0 "outer" (ptrError (Some 2))) sample_world
    = Ok (CodeNotFound, sample_world).
Proof.
  destruct (predicates_read_first_ErrorValue sample_world
              (wrapError 0 "outer" (ptrError (Some 2))) 2 sample_outer)
    as (HIs & HCodeOf & _); [reflexivity | reflexivity | ].
  by split.
Defined.

Lemma predicates_without_ErrorValue_witness :
  CodeOf (leafError 0 "plain") sample_world = Ok (CodeUnknown, sample_world) ∧
  CodeIs (leafError 0 "plain") CodeUnknown sample_world = Ok (false, sample_world).
Proof.
  destruct (predicates_without_ErrorValue sample_world (leafError 0 "plain"))
    as (_ & HCodeOf & HCodeIs & _); [reflexivity | ].
  split; [exact HCodeOf | apply HCodeIs].
Defined.

Lemma rewrap_keeps_code_witness :
  ∃ o w', (c ← CodeOf (ptrError (Some 2)); Wrap (ptrError (Some 2)) c "again" [100%N])
            sample_world = Ok (Some o, w') ∧
          CodeOf (ptrError (Some o)) w' = Ok (CodeNotFound, w').
Proof.
  destruct (rewrap_keeps_code sample_world (ptrError (Some 2)) 2 sample_outer
              "again" [100%N]) as (o & w' & Hrun & _ & _ & HCodeOf);
    [reflexivity | reflexivity | ].
  by exists o, w'.
Defined.

Lemma sample_causes_valid : causes_valid sample_world.
Proof.
  intros l E Hl l' Hin.
  destruct (sample_lookup_cases l E Hl) as [[-> ->] | [-> ->]]; simpl in Hin.
  - apply list_elem_of_singleton in Hin. injection Hin as ->. vm_compute. eauto.
  - by apply elem_of_nil in Hin.
Defined.

Lemma AsType_finds_node_of_type_witness :
  (∃ pe ok, AsType_E (concrete (TyForeign 7)) (wrapError 0 "outer" (ptrError (Some 2)))
              sample_world = Ok ((pe, ok), sample_world)) ∧
  AsType_E error_iface (wrapError 0 "outer" (ptrError (Some 2))) sample_world
    = Ok ((wrapError 0 "outer" (ptrError (Some 2)), true), sample_world) ∧
  assignable (concrete TyError) (ptrError (Some 2)) = true ∧
  reach sample_world (wrapError 0 "outer" (ptrError (Some 2))) (ptrError (Some 2)).
Proof.
  destruct (AsType_finds_node_of_type (concrete (TyForeign 7))
              (wrapError 0 "outer" (ptrError (Some 2))) sample_world)
    as (_ & Hreturns & _).
  destruct (AsType_finds_node_of_type (concrete TyError)
              (wrapError 0 "outer" (ptrError (Some 2))) sample_world)
    as (_ & _ & _ & Hiface & Hfound).
  destruct (Hfound (ptrError (Some 2)) true sample_world eq_refl) as (_ & _ & Hyes & _).
  destruct (Hyes eq_refl) as [Hty Hreach].
  split; [ | split; [ | by split]].
  - apply Hreturns.
    + exact sample_causes_older.
    + exact sample_causes_valid.
    + intros l Hin. simpl in Hin.
      apply elem_of_cons in Hin as [Hin | Hin]; [discriminate | ].
      apply list_elem_of_singleton in Hin. injection Hin as ->. vm_compute. eauto.
  - apply Hiface. discriminate.
Defined.

Lemma builder_chain_same_instance_witness :
  ∃ w', calls (Some 2)
          [call_WithSource "svc"; call_WithMetaFromContext (Some sample_ctx);
           call_WithTags ["a"; "b"]; call_WithRetryable] sample_world
          = Ok (Some 2, w') ∧
        callers_calls w' = callers_calls sample_world.
Proof.
  destruct (builder_chain_same_instance 2 sample_world
              [call_WithSource "svc"; call_WithMetaFromContext (Some sample_ctx);
               call_WithTags ["a"; "b"]; call_WithRetryable])
    as (w' & Hrun & _ & _ & _ & _ & _ & Hcalls).
  - exact sample_outer_ready.
  - simpl. constructor; [exact sample_ctx_valid | constructor].
  - by exists w'.
Defined.

Lemma retryable_never_cleared_witness :
  ∃ w', calls (Some 2)
          ([call_WithSource "svc"] ++ call_WithRetryable ::
           [call_WithDebug "dbg"; call_WithMeta "k" (any_int 1)]) sample_world
          = Ok (Some 2, w') ∧
        Error_IsRetryable (Some 2) w' = Ok (true, w').
Proof.
  apply (retryable_never_cleared 2 sample_world [call_WithSource "svc"]
           [call_WithDebug "dbg"; call_WithMeta "k" (any_int 1)]).
  - exact sample_outer_ready.
  - simpl. constructor.
Defined.

Lemma WithDetail_WithMeta_upsert_witness :
  ∃ w', Error_WithDetail (Some 2) "k" (any_int 1) sample_world = Ok (Some 2, w') ∧
        details_at w' (Some 2) "k" = Some (any_int 1) ∧
        (∀ k', metadata_at w' (Some 2) k' = metadata_at sample_world (Some 2) k').
Proof.
  destruct (WithDetail_WithMeta_upsert sample_world 2 sample_outer 3 4 "k" (any_int 1))
    as ((w' & Hrun & Hk & _ & Hmeta) & _);
    [reflexivity | reflexivity | reflexivity | lia | vm_compute; eauto
     | vm_compute; eauto | ].
  by exists w'.
Defined.

Lemma New_values_are_isolated_witness :
  ∃ a b w',
    (a ← New CodeInternal "one" [100%N]; b ← New CodeNotFound "two" [100%N];
     a' ← calls a [call_WithMeta "key" (any_string "value1");
                   call_WithMetaFromContext (Some sample_ctx)];
     mret (a', b)) sample_world = Ok ((Some a, Some b), w') ∧
    a ≠ b ∧
    (∀ k, details_at w' (Some b) k = None) ∧
    (∀ k, metadata_at w' (Some b) k = None).
Proof.
  apply (New_values_are_isolated sample_world CodeInternal "one" [100%N]
           CodeNotFound "two" [100%N]
           [call_WithMeta "key" (any_string "value1");
            call_WithMetaFromContext (Some sample_ctx)]).
  simpl. constructor; [exact sample_ctx_valid | constructor].
Defined.

Lemma WithMetaFromContext_without_metadata_witness :
  Error_WithMetaFromContext (Some 2) None sample_world = Ok (Some 2, sample_world) ∧
  Error_WithMetaFromContext (Some 2) (Some Background) sample_world
    = Ok (Some 2, sample_world).
Proof.
  split.
  - apply (WithMetaFromContext_without_metadata sample_world 2 sample_outer None);
      reflexivity.
  - apply (WithMetaFromContext_without_metadata sample_world 2 sample_outer
             (Some Background)); reflexivity.
Defined.

Lemma WithMetaFromContext_merges_witness :
  ∃ w', Error_WithMetaFromContext (Some 2) (Some sample_ctx) sample_world
          = Ok (Some 2, w') ∧
        metadata_at w' (Some 2) "k" = Some (any_int 7) ∧
        snapshot w' (Some sample_ctx) = <["k" := any_int 7]> ∅.
Proof.
  destruct (WithMetaFromContext_merges sample_world 2 sample_outer 4 ∅
              (Some sample_ctx) 5 (<["k" := any_int 7]> ∅))
    as (w' & Hrun & _ & Hat & Hsnap & _);
    [reflexivity | reflexivity | reflexivity | reflexivity | reflexivity | lia | ].
  exists w'. split; [exact Hrun | ]. split; [ | exact Hsnap].
  rewrite Hat. reflexivity.
Defined.

Lemma builders_leave_contexts_alone_witness :
  ∃ w', calls (Some 2) [call_WithMeta "k" (any_int 9); call_WithDetail "k" (any_int 9)]
          sample_world = Ok (Some 2, w') ∧
        snapshot w' (Some sample_ctx) = snapshot sample_world (Some sample_ctx).
Proof.
  apply (builders_leave_contexts_alone 2 sample_world
           [call_WithMeta "k" (any_int 9); call_WithDetail "k" (any_int 9)]
           (Some sample_ctx)).
  - exact sample_outer_ready.
  - simpl. constructor.
  - intros E s HE [= <-].
    destruct (sample_lookup_cases 2 E HE) as [[_ ->] | [Hx _]]; [ | lia].
    split; discriminate.
Defined.

Lemma WithMetaContext_composes_witness :
  ∃ c1 w1 c2 w2 c w',
    WithMetaContext (Some sample_ctx) [any_string "a"; any_int 1] sample_world
      = Ok (Some c1, w1) ∧
    WithMetaContext (Some c1) [any_string "k"; any_int 2] w1 = Ok (Some c2, w2) ∧
    WithMetaContext (Some sample_ctx)
        ([any_string "a"; any_int 1] ++ [any_string "k"; any_int 2]) sample_world
      = Ok (Some c, w') ∧
    snapshot w2 (Some c2) = snapshot w' (Some c).
Proof.
  apply (WithMetaContext_composes sample_world sample_ctx
           [any_string "a"; any_int 1] [any_string "k"; any_int 2] 1).
  - exact sample_ctx_valid.
  - reflexivity.
Defined.

Lemma WithMetaContext_siblings_isolated_witness :
  ∃ c1 w1 c2 w2,
    WithMetaContext (Some sample_ctx) [any_string "post_id"; any_int 1] sample_world
      = Ok (Some c1, w1) ∧
    WithMetaContext (Some sample_ctx) [any_string "post_id"; any_int 2] w1
      = Ok (Some c2, w2) ∧
    snapshot w2 (Some c1)
      = spec_attach (snapshot sample_world (Some sample_ctx))
                    [any_string "post_id"; any_int 1] ∧
    snapshot w2 (Some c2)
      = spec_attach (snapshot sample_world (Some sample_ctx))
                    [any_string "post_id"; any_int 2] ∧
    snapshot w2 (Some sample_ctx) = snapshot sample_world (Some sample_ctx).
Proof.
  apply (WithMetaContext_siblings_isolated sample_world sample_ctx
           [any_string "post_id"; any_int 1] [any_string "post_id"; any_int 2]).
  exact sample_ctx_valid.
Defined.

Lemma WithMetaContext_binds_private_key_only_witness :
  ∃ child l w',
    WithMetaContext (Some (valueCtx sample_ctx (otherCtxKey 3) (ctx_other (any_int 5))))
        sample_keyvals sample_world = Ok (Some child, w') ∧
    ctx_Value child (otherCtxKey 3) = Some (ctx_other (any_int 5)) ∧
    getCtxMeta (Some child) = Some l ∧ maps sample_world !! l = None.
Proof.
  destruct (WithMetaContext_binds_private_key_only sample_world
              (valueCtx sample_ctx (otherCtxKey 3) (ctx_other (any_int 5)))
              sample_keyvals) as (child & l & w' & Hrun & Hother & Hl & Hfresh & _).
  - intros s [= <-]. vm_compute. eauto.
  - exists child, l, w'. split; [exact Hrun | ]. split; [ | by split].
    rewrite Hother. reflexivity.
Defined.

Lemma context_metadata_reaches_error_witness :
  ∃ l w',
    (ctx ← WithMetaContext (Some sample_ctx) [any_string "user_id"; any_int 123];
     e ← New CodeInternal "something failed" [100%N];
     Error_WithMetaFromContext e ctx) sample_world = Ok (Some l, w') ∧
    ∀ k, metadata_at w' (Some l) k
           = spec_attach (snapshot sample_world (Some sample_ctx))
                         [any_string "user_id"; any_int 123] !! k.
Proof.
  apply (context_metadata_reaches_error sample_world sample_ctx
           [any_string "user_id"; any_int 123] CodeInternal "something failed" [100%N]).
  exact sample_ctx_valid.
Defined.

Lemma cause_order_is_kept_witness :
  causes_older sample_world ∧
  ∀ e w', Wrap (ptrError (Some 2)) CodeInternal "x" [100%N] sample_world = Ok (e, w') →
          causes_older w' ∧ error_valid w' (ptrError e).
Proof.
  split; [exact sample_causes_older | ].
  intros e w'.
  destruct (cause_order_is_kept sample_world sample_causes_older) as (_ & HWrap & _).
  apply HWrap. apply error_valid_ptr. vm_compute. eauto.
Defined.

Lemma no_Error_is_its_own_cause_witness :
  ¬ reach sample_world (cause sample_outer) (ptrError (Some 2)).
Proof.
  apply (no_Error_is_its_own_cause sample_world 2 sample_outer).
  - exact sample_causes_older.
  - reflexivity.
Defined.

Lemma renderings_list_the_set_fields_witness :
  Error_DebugMessage (λ _, "not_found") (λ _, "[]") (λ _, "map[]") (λ _, "F")
      (Some 2) sample_world
    = Ok ("[not_found] user not found | cause=service unavailable", sample_world) ∧
  Error_LogValue (λ _, "not_found") (Some 2) sample_world
    = Ok (Some [("code", slog_String "not_found");
                ("message", slog_String "user not found");
                ("cause", slog_Error (ptrError (Some 1)))], sample_world).
Proof.
  destruct (renderings_list_the_set_fields (λ _, "not_found") (λ _, "[]") (λ _, "map[]")
              (λ _, "F") sample_world 2 sample_outer ∅ ∅ "service unavailable")
    as [Hdbg Hlog]; try reflexivity.
  split; [exact Hdbg | exact Hlog].
Defined.

Lemma fresh_values_render_bare_witness :
  (∃ l w', Wrap (leafError 0 "E") CodeUnavailable "database unavailable"
             [100%N] sample_world = Ok (Some l, w') ∧
     Error_DebugMessage (λ _, "unavailable") (λ _, "[]") (λ _, "map[]") (λ _, "F")
         (Some l) w'
       = Ok ("[unavailable] database unavailable | cause=F", w')) ∧
  (∃ l w', Wrap (ptrError (Some 2)) CodeUnavailable "database unavailable"
             [100%N] sample_world = Ok (Some l, w') ∧
     Error_DebugMessage (λ _, "unavailable") (λ _, "[]") (λ _, "map[]") (λ _, "F")
         (Some l) w'
       = Ok ("[unavailable] database unavailable | cause=user not found", w')).
Proof.
  split.
  - destruct (proj1 (proj2 (fresh_values_render_bare (λ _, "unavailable") (λ _, "[]")
                       (λ _, "map[]") (λ _, "F") sample_world CodeUnavailable
                       "database unavailable" [100%N]))
                (leafError 0 "E") "F")
      as (l & w' & Hrun & Hdbg & _); [discriminate | reflexivity | ].
    by exists l, w'.
  - destruct (proj1 (proj2 (fresh_values_render_bare (λ _, "unavailable") (λ _, "[]")
                       (λ _, "map[]") (λ _, "F") sample_world CodeUnavailable
                       "database unavailable" [100%N]))
                (ptrError (Some 2)) "user not found")
      as (l & w' & Hrun & Hdbg & _); [discriminate | reflexivity | ].
    by exists l, w'.
Defined.
